(** * tron-shkeeper: the TRC20 payout planner ([app/trc20wallet.py])

    A shallow embedding of [Account], [Trc20Wallet] and [PayoutStrategy]
    and the properties of the fund-collection planner, the fee estimate
    and the fee seeding.

    Conventions of the embedding.
    - [Decimal] values are exact integers ([Z]): the planner only adds,
      subtracts, compares and multiplies them by integers, which [Decimal]
      does exactly within the precision of its context and [Z] does
      exactly.  A literal of the source is the same literal here.
    - The [Account] objects of a wallet live in a store, the list
      [accounts]; a Python reference to one of them is its position in that
      list.  Reading [acc.tokens] through a reference is a lookup in the
      current store, assigning to it replaces the record at that position.
      [copy(acc)] is the record itself, a value that later assignments do
      not reach.
    - A method that can raise returns the object state it leaves behind
      together with [Ok v] or [Raise e]: an exception does not undo the
      assignments made before it. *)

From stdpp Require Import base numbers list strings sorting gmap.

Open Scope string_scope.
Open Scope list_scope.
Open Scope Z_scope.

(** ** Data model *)

Definition Decimal := Z.

(** [@dataclass class Account] *)
Record Account := mkAccount {
  addr : string;
  tokens : Decimal;
  currency : Decimal;
  bandwidth : Z;
  bandwidth_limit : Z
}.

(** An [Account] built with the defaults of the dataclass. *)
Definition default_Account (a : string) : Account :=
  mkAccount a 0 0 0 1500.

#[global] Instance Account_inhabited : Inhabited Account :=
  populate (default_Account "").

(** [acc.tokens = v] on the record [acc]. *)
Definition set_tokens (v : Decimal) (acc : Account) : Account :=
  mkAccount (addr acc) v (currency acc) (bandwidth acc) (bandwidth_limit acc).

(** One entry of [payout_list]: the dict [{'dest': ..., 'amount': ...}]. *)
Module Payout.
Record t := mk { dest : string; amount : Decimal }.
End Payout.

(** One transfer: the dict [{'src': ..., 'dst': ..., 'amount': ..., 'debug': ...}]. *)
Record Transfer := mkTransfer {
  src : Account;
  dst : string;
  amount : Decimal;
  debug : string
}.

(** The exceptions of the module.  The source raises plain [Exception]s
    told apart by their message; each constructor stands for one message. *)
Inductive Exception :=
| EmptyPayout            (* 'Payout amount can not be 0' *)
| InsufficientFunds      (* 'Not enough tokens to complete payout. ...' *)
| InvalidAmount          (* 'Invalid amount porivded for payout to ...' *)
| AllocationOverrun      (* 'Collected too much! This should not happen!...' *)
| OutOfAccounts          (* 'Out of accounts while collecting payout amount! ...' *)
| InsufficientSeedFunds  (* 'Fee deposit account has not enought currency. ...' *)
| RecursionError.        (* Python's own, see [generate_steps] *)

Inductive Result (A : Type) :=
| Ok (a : A)
| Raise (e : Exception).
Arguments Ok {A} a.
Arguments Raise {A} e.

(** The configuration keys the module reads ([config[...]]). *)
Record Config := mkConfig {
  TX_FEE : Decimal;
  CONCURRENT_MAX_WORKERS : nat;
  CONCURRENT_MAX_RETRIES : nat
}.

(** Python's [sum] over a list of numbers. *)
Definition sumZ (l : list Z) : Z := foldr Z.add 0 l.

(** ** Trc20Wallet *)

(** The wallet as far as the planner uses it: the store of its accounts. *)
Record Trc20Wallet := mkWallet {
  accounts : list Account
}.

(** [Trc20Wallet.tokens] *)
Definition wallet_tokens (h : list Account) : Decimal :=
  sumZ (map tokens h).

(** References (positions, counted from [k]) of the accounts of [l] that
    pass the test [p], in order: [list(filter(p, self.accounts))]. *)
Fixpoint refs_where (p : Account -> bool) (k : nat) (l : list Account) : list nat :=
  match l with
  | [] => []
  | acc :: l' =>
      if p acc then k :: refs_where p (S k) l' else refs_where p (S k) l'
  end.

(** [Trc20Wallet.accounts_with_tokens] *)
Definition accounts_with_tokens (h : list Account) : list nat :=
  refs_where (fun acc => 0 <? tokens acc) 0%nat h.

(** [Trc20Wallet.accounts_without_tokens] *)
Definition accounts_without_tokens (h : list Account) : list nat :=
  refs_where (fun acc => tokens acc =? 0) 0%nat h.

(** [Trc20Wallet.accounts_with_bandwidth] *)
Definition accounts_with_bandwidth (h : list Account) : list nat :=
  refs_where (fun acc => 0 <? bandwidth acc) 0%nat h.

(** [Trc20Wallet.accounts_with_currency] *)
Definition accounts_with_currency (h : list Account) : list nat :=
  refs_where (fun acc => 0 <? currency acc) 0%nat h.

(** ** PayoutStrategy *)

Record PayoutStrategy := mkStrategy {
  wallet : Trc20Wallet;
  payout_list : list Payout.t;
  steps : list (list Transfer)
}.

Definition store (s : PayoutStrategy) : list Account := accounts (wallet s).

(** [PayoutStrategy.check_payout_list] *)
Definition check_payout_list (w : Trc20Wallet) (pl : list Payout.t) : Result unit :=
  let payout_total := sumZ (map Payout.amount pl) in
  if payout_total =? 0 then Raise EmptyPayout
  else if wallet_tokens (accounts w) <? payout_total then Raise InsufficientFunds
  else Ok tt.

(** [PayoutStrategy.__init__] *)
Definition PayoutStrategy_init (w : Trc20Wallet) (pl : list Payout.t)
  : Result PayoutStrategy :=
  match check_payout_list w pl with
  | Raise e => Raise e
  | Ok _ => Ok (mkStrategy w pl [])
  end.

(** *** [PayoutStrategy.step] *)

(** First loop of [step]: the first account of [refs] whose balance is
    [amount]; nothing is assigned before the loop returns. *)
Fixpoint find_exact (h : list Account) (amount : Decimal) (refs : list nat)
  : option nat :=
  match refs with
  | [] => None
  | i :: rest =>
      if tokens (h !!! i) =? amount then Some i else find_exact h amount rest
  end.

(** Second loop of [step] ('all to 1'): every account of [refs] gives all
    it has. *)
Fixpoint sweep_loop (d : string) (refs : list nat)
    (h : list Account) (transfers : list Transfer)
  : list Account * list Transfer :=
  match refs with
  | [] => (h, transfers)
  | i :: rest =>
      let acc := h !!! i in
      sweep_loop d rest
        (<[i := set_tokens 0 acc]> h)
        (transfers ++ [mkTransfer acc d (tokens acc) "all to 1"])
  end.

(** The local state of the third loop of [step]. *)
Record Greedy := mkGreedy {
  g_store : list Account;
  g_transfers : list Transfer;
  collected_amount : Decimal
}.

(** What one pass through the body of the third loop does. *)
Inductive Flow :=
| Continue (g : Greedy)   (* falls through to the next account *)
| Return                  (* [self.steps.append(transfers); return transfers] *)
| Overrun.                (* [raise Exception('Collected too much! ...')] *)

Definition greedy_body (d : string) (amount : Decimal) (i : nat) (g : Greedy) : Flow :=
  if collected_amount g =? amount then Return
  else if collected_amount g <? amount then
    let acc := g_store g !!! i in
    let to_collect := amount - collected_amount g in
    if to_collect <? tokens acc then
      Continue (mkGreedy
        (<[i := set_tokens (tokens acc - to_collect) acc]> (g_store g))
        (g_transfers g ++ [mkTransfer acc d to_collect "acc partial"])
        (collected_amount g + to_collect))
    else
      Continue (mkGreedy
        (<[i := set_tokens 0 acc]> (g_store g))
        (g_transfers g ++ [mkTransfer acc d (tokens acc) "acc full"])
        (collected_amount g + tokens acc))
  else Overrun.

(** The third loop with the test that follows it. *)
Fixpoint greedy_loop (d : string) (amount : Decimal) (refs : list nat) (g : Greedy)
  : list Account * Result (list Transfer) :=
  match refs with
  | [] =>
      if collected_amount g =? amount then (g_store g, Ok (g_transfers g))
      else (g_store g, Raise OutOfAccounts)
  | i :: rest =>
      match greedy_body d amount i g with
      | Continue g' => greedy_loop d amount rest g'
      | Return => (g_store g, Ok (g_transfers g))
      | Overrun => (g_store g, Raise AllocationOverrun)
      end
  end.

Definition with_store (s : PayoutStrategy) (h : list Account) : PayoutStrategy :=
  mkStrategy (mkWallet h) (payout_list s) (steps s).

(** [self.steps.append(transfers)] *)
Definition append_steps (s : PayoutStrategy) (transfers : list Transfer)
  : PayoutStrategy :=
  mkStrategy (wallet s) (payout_list s) (steps s ++ [transfers]).

Definition step (d : string) (amount : Decimal) (s : PayoutStrategy)
  : PayoutStrategy * Result (list Transfer) :=
  if amount <=? 0 then (s, Raise InvalidAmount)
  else
    let h := store s in
    match find_exact h amount (accounts_with_tokens h) with
    | Some i =>
        let acc := h !!! i in
        let transfers := [mkTransfer acc d amount "1 to 1"] in
        (append_steps
           (with_store s (<[i := set_tokens (tokens acc - amount) acc]> h))
           transfers,
         Ok transfers)
    | None =>
        if amount =? wallet_tokens h then
          let '(h', transfers) := sweep_loop d (accounts_with_tokens h) h [] in
          (append_steps (with_store s h') transfers, Ok transfers)
        else
          match greedy_loop d amount (accounts_with_tokens h) (mkGreedy h [] 0) with
          | (h', Ok transfers) =>
              (append_steps (with_store s h') transfers, Ok transfers)
          | (h', Raise e) => (with_store s h', Raise e)
          end
    end.

(** *** [PayoutStrategy.generate_steps] *)

(** The loop over [self.payout_list]; the first exception ends it. *)
Fixpoint generate_steps_loop (pl : list Payout.t) (s : PayoutStrategy)
  : PayoutStrategy * Result unit :=
  match pl with
  | [] => (s, Ok tt)
  | payout :: rest =>
      match step (Payout.dest payout) (Payout.amount payout) s with
      | (s', Ok _) => generate_steps_loop rest s'
      | (s', Raise e) => (s', Raise e)
      end
  end.

(** After the loop [generate_steps] logs [self.estimate_fee()], which calls
    [generate_steps] again while [self.steps] is empty.  That happens only
    when nothing was planned (an empty [payout_list], which [__init__]
    refuses); the calls then nest until Python raises its [RecursionError].
    With a group planned the logged estimate changes nothing. *)
Definition generate_steps (s : PayoutStrategy)
  : PayoutStrategy * Result (list (list Transfer)) :=
  match generate_steps_loop (payout_list s) s with
  | (s', Ok _) =>
      match steps s' with
      | [] => (s', Raise RecursionError)
      | _ :: _ => (s', Ok (steps s'))
      end
  | (s', Raise e) => (s', Raise e)
  end.

(** *** [PayoutStrategy.estimate_fee] *)

(** The dict [{'accounts_num': ..., 'fee': ...}]. *)
Record FeeEstimate := mkFeeEstimate {
  accounts_num : Z;
  fee : Decimal
}.

Definition activation_and_transfer_fee : Decimal := 2.

Definition estimate_fee (cfg : Config) (s : PayoutStrategy)
  : PayoutStrategy * Result FeeEstimate :=
  let '(s', r) :=
    match steps s with
    | [] => generate_steps s
    | _ :: _ => (s, Ok (steps s))
    end in
  match r with
  | Raise e => (s', Raise e)
  | Ok _ =>
      let accounts_num := Z.of_nat (length (concat (steps s'))) in
      (s', Ok (mkFeeEstimate accounts_num
                 (accounts_num * (TX_FEE cfg + activation_and_transfer_fee))))
  end.

(** *** [PayoutStrategy.seed_payout_fees] *)

(** How the chain answers one
    [client.trx.transfer(...).build().sign(...)], [broadcast().wait()]. *)
Inductive TxOutcome :=
| SignError
| BroadcastRejected
| ConfirmTimeout
| Confirmed (txid : string).

(** What [seed_payout_fees] gets from outside: the 'fee_deposit' row of the
    key table and the chain client.  [trx_transfer k from to amount] is the
    answer to the transfer built for the [k]-th account to seed. *)
Record Chain := mkChain {
  fee_deposit_public : string;
  get_account_balance : string -> Decimal;
  trx_transfer : nat -> string -> string -> Z -> TxOutcome
}.

(** A native transfer handed to the chain client. *)
Record SeedTx := mkSeedTx {
  tx_from : string;
  tx_to : string;
  tx_amount : Z
}.

(** The dict [{'addr': acc, 'txid': txn.txid}] a successful [seed] returns. *)
Record SeedResult := mkSeedResult {
  sr_addr : Account;
  sr_txid : string
}.

(** The inner function [seed]: the transfer it hands to the chain and what
    it returns, a dict or, when the [except] branch was taken, [None]. *)
Definition seed (chain : Chain) (cfg : Config) (k : nat) (acc : Account)
  : SeedTx * option SeedResult :=
  let amount_to_seed := TX_FEE cfg - currency acc in
  let tx := mkSeedTx (fee_deposit_public chain) (addr acc)
              (amount_to_seed * 1000000) in
  (tx,
   match trx_transfer chain k (tx_from tx) (tx_to tx) (tx_amount tx) with
   | Confirmed txid => Some (mkSeedResult acc txid)
   | SignError | BroadcastRejected | ConfirmTimeout => None
   end).

(** [list(executor.map(seed, accs))]: one call of [seed] per element, the
    results in the order of [accs].  The transfers are listed in that order
    too; the pool may hand them to the chain in another. *)
Fixpoint executor_map_seed (chain : Chain) (cfg : Config) (k : nat)
    (accs : list Account) : list SeedTx * list (option SeedResult) :=
  match accs with
  | [] => ([], [])
  | acc :: rest =>
      let '(tx, r) := seed chain cfg k acc in
      let '(txs, rs) := executor_map_seed chain cfg (S k) rest in
      (tx :: txs, r :: rs)
  end.

Definition accounts_need_seeding (cfg : Config) (plan : list (list Transfer))
  : list Account :=
  map src (List.filter (fun transfer => currency (src transfer) <? TX_FEE cfg)
             (concat plan)).

(** Returns the transfers handed to the chain and the value returned or
    the exception raised. *)
Definition seed_payout_fees (chain : Chain) (cfg : Config) (s : PayoutStrategy)
  : list SeedTx * Result (list (option SeedResult)) :=
  let fee_deposit_account_balance :=
    get_account_balance chain (fee_deposit_public chain) in
  let need := accounts_need_seeding cfg (steps s) in
  let need_currency := Z.of_nat (length need) * TX_FEE cfg in
  if fee_deposit_account_balance <? need_currency
  then ([], Raise InsufficientSeedFunds)
  else
    let '(txs, rs) := executor_map_seed chain cfg 0%nat need in
    (txs, Ok rs).


(** ** [Trc20Wallet.refresh_accounts] *)

Module Refresh.

(** How the chain client answers one call: with a value or with one of
    the two exceptions of [tronpy.exceptions] the function names. *)
Inductive Reply (A : Type) :=
| Value (a : A)
| UnknownError
| AddressNotFound.
Arguments Value {A} a.
Arguments UnknownError {A}.
Arguments AddressNotFound {A}.

(** The contract and the client as [get] uses them.  The first argument
    is the position of the address in [public_keys] (the task of the
    pool), the last one the value of [retries] when the call is made.
    [get_account_resource] gives the ['freeNetUsed'] entry of the dict the
    client returns, if the dict has one. *)
Record Client := mkClient {
  balanceOf : nat -> string -> nat -> Reply N;
  get_account_balance : nat -> string -> nat -> Reply Decimal;
  get_account_resource : nat -> string -> nat -> Reply (option Z)
}.

(** What [refresh_accounts] can raise. *)
Inductive Error :=
| RetriesExceeded (a : string)  (* 'CONCURRENT_MAX_RETRIES exeeded while processing ...' *)
| AddressNotFoundRaised.        (* [AddressNotFound] out of [balanceOf], caught nowhere *)

Inductive Fetched (A : Type) :=
| Got (a : A)
| Failed (e : Error).
Arguments Got {A} a.
Arguments Failed {A} e.

(** One pass through the body of the [while] loop of [get]. *)
Inductive Attempt :=
| Retry                 (* [UnknownError] caught: [retries += 1] *)
| Done (acc : Account)  (* [return Account(...)] *)
| Escapes.              (* an exception the loop does not catch *)

(** [Account.bandwidth_limit], the default of the dataclass field. *)
Definition Account_bandwidth_limit : Z := bandwidth_limit (default_Account "").

(** [scale raw] stands for [Decimal(raw) / 10 ** self.precision]. *)
Definition attempt (c : Client) (scale : N -> Decimal)
    (k : nat) (a : string) (retries : nat) : Attempt :=
  match balanceOf c k a retries with
  | UnknownError => Retry
  | AddressNotFound => Escapes
  | Value raw =>
    let tokens := scale raw in
    match get_account_balance c k a retries with
    | UnknownError => Retry
    | AddressNotFound => Done (mkAccount a tokens 0 0 1500)
    | Value currency =>
        match get_account_resource c k a retries with
        | UnknownError => Retry
        | AddressNotFound => Done (mkAccount a tokens 0 0 1500)
        | Value resource =>
            Done (mkAccount a tokens currency
                    (Account_bandwidth_limit - default 0 resource) 1500)
        end
    end
  end.

(** The [while retries < config['CONCURRENT_MAX_RETRIES']] loop of [get]:
    [left] passes are left, [retries] were made. *)
Fixpoint get_loop (c : Client) (scale : N -> Decimal) (k : nat) (a : string)
    (left retries : nat) : Fetched Account :=
  match left with
  | O => Failed (RetriesExceeded a)
  | S left' =>
    match attempt c scale k a retries with
    | Done acc => Got acc
    | Escapes => Failed AddressNotFoundRaised
    | Retry => get_loop c scale k a left' (S retries)
    end
  end.

(** The inner function [get]. *)
Definition get (c : Client) (scale : N -> Decimal) (cfg : Config)
    (k : nat) (a : string) : Fetched Account :=
  get_loop c scale k a (CONCURRENT_MAX_RETRIES cfg) 0.

(** [list(executor.map(get, public_keys))]: the results in the order of
    the keys; the first key, in that order, whose [get] raised makes the
    whole expression raise. *)
Fixpoint executor_map_get (c : Client) (scale : N -> Decimal) (cfg : Config)
    (k : nat) (public_keys : list string) : Fetched (list Account) :=
  match public_keys with
  | [] => Got []
  | a :: rest =>
    match get c scale cfg k a with
    | Failed e => Failed e
    | Got acc =>
        match executor_map_get c scale cfg (S k) rest with
        | Failed e => Failed e
        | Got accs => Got (acc :: accs)
        end
    end
  end.

(** [accounts.sort(key=lambda account: account.tokens, reverse=True)]:
    Python's sort is stable, also with [reverse=True]. *)
Fixpoint insert_by_tokens (x : Account) (l : list Account) : list Account :=
  match l with
  | [] => [x]
  | y :: l' =>
    if tokens y <=? tokens x then x :: y :: l'
    else y :: insert_by_tokens x l'
  end.

Definition sort_by_tokens (l : list Account) : list Account :=
  foldr insert_by_tokens [] l.

(** [refresh_accounts]; [public_keys] is what the query on the key table
    returns. *)
Definition refresh_accounts (c : Client) (scale : N -> Decimal) (cfg : Config)
    (public_keys : list string) : Fetched (list Account) :=
  match executor_map_get c scale cfg 0 public_keys with
  | Failed e => Failed e
  | Got accounts => Got (sort_by_tokens accounts)
  end.


End Refresh.

(** ** The event filter ([app/events.py]) *)

Module Events.

#[local] Set Warnings "-register-all".

(** A value as [json.loads] returns it.  A number keeps its text; the
    members of a dict are listed with each key once. *)
Inductive JSON :=
| JNull
| JBool (b : bool)
| JNumber (text : string)
| JString (s : string)
| JArray (items : list JSON)
| JObject (members : list (string * JSON)).

Fixpoint lookup_member (key : string) (members : list (string * JSON))
  : option JSON :=
  match members with
  | [] => None
  | (k, v) :: rest => if String.eqb k key then Some v else lookup_member key rest
  end.

(** [v[key]] for a string [key]: [None] stands for the exception Python
    raises, [KeyError] for a dict without the key and [TypeError] for
    anything that is not a dict. *)
Definition getitem (v : JSON) (key : string) : option JSON :=
  match v with
  | JObject members => lookup_member key members
  | JNull | JBool _ | JNumber _ | JString _ | JArray _ => None
  end.

(** [v == s] for a string literal [s]. *)
Definition eq_str (v : JSON) (s : string) : bool :=
  match v with
  | JString s' => String.eqb s' s
  | JNull | JBool _ | JNumber _ | JArray _ | JObject _ => false
  end.

(** [v in FILTER].  [FILTER] maps addresses (strings) to symbols; a list or
    a dict cannot be hashed and makes the test raise [TypeError]. *)
Definition contains (FILTER : gmap string string) (v : JSON) : option bool :=
  match v with
  | JString a => Some (bool_decide (is_Some (FILTER !! a)))
  | JNull | JBool _ | JNumber _ => Some false
  | JArray _ | JObject _ => None
  end.

(** The list the [try] block of [apply_filter] assigns to [cond], if no
    subscript or test in it raises. *)
Definition cond_of (FILTER : gmap string string) (msg : JSON) : option (list bool) :=
  triggerName ← getitem msg "triggerName";
  eventName ← getitem msg "eventName";
  topicMap ← getitem msg "topicMap";
  to ← getitem topicMap "to";
  known ← contains FILTER to;
  Some [eq_str triggerName "contractEventTrigger"; eq_str eventName "Transfer"; known].

(** [apply_filter]: [cond] stays [[]] when the [try] block raises. *)
Definition apply_filter (FILTER : gmap string string) (msg : JSON) : bool :=
  let cond := default [] (cond_of FILTER msg) in
  match cond with
  | [] => false
  | _ :: _ => forallb id cond
  end.

(** The calls the body of the message loop of [ws_main] makes out of this
    module. *)
Inductive Effect :=
| SaveEvent (txid : JSON) (message : string)   (* [save_event(txid, message)] *)
| Notify (symbol : string) (txid : JSON).      (* [notify_shkeeper(symbol, txid)] *)

(** [FILTER[v]]: [None] for [KeyError] and [TypeError]. *)
Definition filter_symbol (FILTER : gmap string string) (v : JSON) : option string :=
  match v with
  | JString a => FILTER !! a
  | JNull | JBool _ | JNumber _ | JArray _ | JObject _ => None
  end.

(** One pass through the body of [async for message in websocket], all in
    a [try] whose [except Exception] logs and goes on to the next message.
    [parsed] is what [json.loads(message)] returns, [None] if it raises;
    [save_ok] tells whether [save_event] returns. *)
Definition on_message (FILTER : gmap string string) (save_ok : bool)
    (parsed : option JSON) (message : string) : list Effect :=
  match parsed with
  | None => []
  | Some event =>
      if apply_filter FILTER event then
        match getitem event "transactionId" with
        | None => []
        | Some txid =>
            SaveEvent txid message ::
            (if save_ok then
               match (topicMap ← getitem event "topicMap";
                      to ← getitem topicMap "to";
                      filter_symbol FILTER to) with
               | Some symbol => [Notify symbol txid]
               | None => []
               end
             else [])
        end
      else []
  end.

End Events.
(** ** Notions used by the properties *)

(** Balances as [refresh_accounts] fetches them: [balanceOf] is an unsigned
    integer of the token contract, so no account holds a negative balance. *)
Definition wallet_ok (h : list Account) : Prop :=
  Forall (fun acc => 0 <= tokens acc) h.

(** [allocates h ts h']: starting from the store [h], the transfers [ts]
    can be replayed one after the other, each taking from a live account
    of the current store whose record is the transfer's ['src'] and whose
    balance covers the amount, and debiting it; the replay ends in [h']. *)
Inductive allocates : list Account -> list Transfer -> list Account -> Prop :=
| allocates_nil h : allocates h [] h
| allocates_cons h i t ts h' :
    h !! i = Some (src t) ->
    amount t <= tokens (src t) ->
    allocates (<[i := set_tokens (tokens (src t) - amount t) (src t)]> h) ts h' ->
    allocates h (t :: ts) h'.

(** What planning leaves alone in an account. *)
Definition frame (acc : Account) : string * Decimal * Z * Z :=
  (addr acc, currency acc, bandwidth acc, bandwidth_limit acc).

(** References that point into the store. *)
Definition refs_valid (h : list Account) (refs : list nat) : Prop :=
  Forall (fun i => (i < length h)%nat) refs.



(** Two records of one account that differ at most in [tokens]. *)
Definition same_frame (acc acc' : Account) : Prop :=
  addr acc' = addr acc /\ currency acc' = currency acc /\
  bandwidth acc' = bandwidth acc /\ bandwidth_limit acc' = bandwidth_limit acc.

(** The sum of the shortfalls [TX_FEE - currency] of a list of accounts. *)
Definition sum_of_shortfalls (cfg : Config) (accs : list Account) : Decimal :=
  sumZ (map (fun acc => TX_FEE cfg - currency acc) accs).

(** The transfer [seed] builds for an account. *)
Definition seed_tx (chain : Chain) (cfg : Config) (acc : Account) : SeedTx :=
  mkSeedTx (fee_deposit_public chain) (addr acc)
    ((TX_FEE cfg - currency acc) * 1000000).

(** What [seed] returns for the [k]-th account to seed. *)
Definition seed_result (chain : Chain) (cfg : Config) (k : nat) (acc : Account)
  : option SeedResult :=
  match trx_transfer chain k (fee_deposit_public chain) (addr acc)
          ((TX_FEE cfg - currency acc) * 1000000) with
  | Confirmed txid => Some (mkSeedResult acc txid)
  | SignError | BroadcastRejected | ConfirmTimeout => None
  end.

(** The address an entry of the list returned by [seed_payout_fees] names:
    the ['addr'] of the dict, nothing for [None]. *)
Definition entry_addr (entry : option SeedResult) : option string :=
  match entry with
  | Some r => Some (addr (sr_addr r))
  | None => None
  end.

(** A chain for the examples: the fee-deposit address "F" holds [balance]
    and every transfer gets the answer [outcome]. *)
Definition chain_of (balance : Decimal) (outcome : TxOutcome) : Chain :=
  mkChain "F" (fun _ => balance) (fun _ _ _ _ => outcome).

(** The planner after planning [pl] over the accounts [h]. *)
Definition planned (h : list Account) (pl : list Payout.t) : PayoutStrategy :=
  (generate_steps (mkStrategy (mkWallet h) pl [])).1.


(** The ledger of the scenarios of the specification. *)
Definition ledger3 : Trc20Wallet :=
  mkWallet [mkAccount "A" 100 0 0 1500; mkAccount "B" 60 0 0 1500;
            mkAccount "C" 40 0 0 1500].


(** A transfer that takes all its source holds. *)
Definition takes_all (t : Transfer) : Prop := amount t = tokens (src t).

(** [drawn h h' i t]: the transfer [t] was taken from the account at
    position [i], whose record in [h] is the transfer's ['src'], for a
    positive amount within its balance, and [h'] holds that account
    debited by the amount. *)
Definition drawn (h h' : list Account) (i : nat) (t : Transfer) : Prop :=
  h !! i = Some (src t) /\
  0 < amount t /\ amount t <= tokens (src t) /\
  h' !! i = Some (set_tokens (tokens (src t) - amount t) (src t)).

(** The references in [refs] point to accounts of [h] that hold tokens. *)
Definition refs_positive (h : list Account) (refs : list nat) : Prop :=
  Forall (fun i => 0 < tokens (h !!! i)) refs.

(** What planning can do to the balance of one account: lower it, and
    not below zero if it was not negative. *)
Definition lowered (acc acc' : Account) : Prop :=
  tokens acc' <= tokens acc /\ (0 <= tokens acc -> 0 <= tokens acc').

(** The order [refresh_accounts] leaves the accounts in: no account holds
    more tokens than one before it. *)
Definition by_tokens_desc (acc acc' : Account) : Prop := tokens acc' <= tokens acc.

(** The accounts of a list that hold exactly [v] tokens, in order. *)
Definition holding (v : Decimal) (l : list Account) : list Account :=
  List.filter (fun acc => tokens acc =? v) l.

(** A client for the examples: every call answers at once, [balanceOf]
    with the balance [bal a] of the address. *)
Definition client_of (bal : string -> N) : Refresh.Client :=
  Refresh.mkClient (fun _ a _ => Refresh.Value (bal a))
    (fun _ _ _ => Refresh.Value 0) (fun _ _ _ => Refresh.Value None).

(** A client whose [balanceOf] raises [UnknownError] on the first [n]
    passes for every address and then answers 50; the address has never
    been seen by the chain. *)
Definition flaky_client (n : nat) : Refresh.Client :=
  Refresh.mkClient
    (fun _ _ r => if (r <? n)%nat then Refresh.UnknownError else Refresh.Value 50%N)
    (fun _ _ _ => Refresh.AddressNotFound) (fun _ _ _ => Refresh.Value None).

(** Balances for the examples. *)
Definition bal3 (a : string) : N :=
  if String.eqb a "A" then 60%N else if String.eqb a "B" then 100%N else 0%N.

(** An event that reports a token transfer to the address [a]:
    [msg] is a dict whose ['triggerName'] is 'contractEventTrigger', whose
    ['eventName'] is 'Transfer' and whose ['topicMap'] is a dict with the
    string [a] under ['to']. *)
Definition transfer_to (msg : Events.JSON) (a : string) : Prop :=
  exists members topics,
    msg = Events.JObject members /\
    Events.lookup_member "triggerName" members
      = Some (Events.JString "contractEventTrigger") /\
    Events.lookup_member "eventName" members = Some (Events.JString "Transfer") /\
    Events.lookup_member "topicMap" members = Some (Events.JObject topics) /\
    Events.lookup_member "to" topics = Some (Events.JString a).

(** An event for the examples: a transfer to "TA" in transaction "tx1". *)
Definition event_TA : Events.JSON :=
  Events.JObject
    [("transactionId", Events.JString "tx1");
     ("triggerName", Events.JString "contractEventTrigger");
     ("eventName", Events.JString "Transfer");
     ("topicMap", Events.JObject [("from", Events.JString "TB");
                                  ("to", Events.JString "TA")])].

(** ** The scenarios of the specification *)

Example scenario_exact :
  generate_steps (mkStrategy ledger3 [Payout.mk "X" 100] []) =
  (mkStrategy
     (mkWallet [mkAccount "A" 0 0 0 1500; mkAccount "B" 60 0 0 1500;
                mkAccount "C" 40 0 0 1500])
     [Payout.mk "X" 100]
     [[mkTransfer (mkAccount "A" 100 0 0 1500) "X" 100 "1 to 1"]],
   Ok [[mkTransfer (mkAccount "A" 100 0 0 1500) "X" 100 "1 to 1"]]).
Proof. reflexivity. Qed.

Example scenario_greedy :
  generate_steps (mkStrategy ledger3 [Payout.mk "X" 130] []) =
  (mkStrategy
     (mkWallet [mkAccount "A" 0 0 0 1500; mkAccount "B" 30 0 0 1500;
                mkAccount "C" 40 0 0 1500])
     [Payout.mk "X" 130]
     [[mkTransfer (mkAccount "A" 100 0 0 1500) "X" 100 "acc full";
       mkTransfer (mkAccount "B" 60 0 0 1500) "X" 30 "acc partial"]],
   Ok [[mkTransfer (mkAccount "A" 100 0 0 1500) "X" 100 "acc full";
        mkTransfer (mkAccount "B" 60 0 0 1500) "X" 30 "acc partial"]]).
Proof. reflexivity. Qed.

Example scenario_sweep :
  generate_steps
    (mkStrategy (mkWallet [mkAccount "A" 100 0 0 1500; mkAccount "B" 60 0 0 1500])
       [Payout.mk "X" 160] []) =
  (mkStrategy
     (mkWallet [mkAccount "A" 0 0 0 1500; mkAccount "B" 0 0 0 1500])
     [Payout.mk "X" 160]
     [[mkTransfer (mkAccount "A" 100 0 0 1500) "X" 100 "all to 1";
       mkTransfer (mkAccount "B" 60 0 0 1500) "X" 60 "all to 1"]],
   Ok [[mkTransfer (mkAccount "A" 100 0 0 1500) "X" 100 "all to 1";
        mkTransfer (mkAccount "B" 60 0 0 1500) "X" 60 "all to 1"]]).
Proof. reflexivity. Qed.

Example scenario_over_budget :
  PayoutStrategy_init (mkWallet [mkAccount "A" 50 0 0 1500]) [Payout.mk "X" 80]
  = Raise InsufficientFunds.
Proof. reflexivity. Qed.

(** ** Lemmas on the store and the loops *)

Section StoreLemmas.

Implicit Types (h : list Account) (i j : nat) (acc : Account).



Lemma lookup_total_Some h i : (i < length h)%nat -> h !! i = Some (h !!! i).
Proof. intros Hi. by apply list_lookup_lookup_total_lt. Qed.



Lemma frame_insert h i v :
  map frame (<[i := set_tokens v (h !!! i)]> h) = map frame h.
Proof.
  destruct (decide (i < length h)%nat) as [Hi|Hi].
  - change (map frame) with (fmap (M:=list) frame).
    rewrite list_fmap_insert. apply list_insert_id.
    rewrite list_lookup_fmap, (lookup_total_Some _ _ Hi). done.
  - rewrite list_insert_ge by lia. done.
Qed.

(** The references [refs_where] returns point into the list. *)
Lemma refs_where_lt p k l :
  Forall (fun i => (i < k + length l)%nat) (refs_where p k l).
Proof.
  revert k. induction l as [|a l IH]; intros k; simpl; [constructor |].
  specialize (IH (S k)).
  assert (Forall (fun i => (i < k + S (length l))%nat) (refs_where p (S k) l)).
  { eapply Forall_impl; [exact IH | simpl; intros; lia]. }
  destruct (p a); [constructor; [lia | done] | done].
Qed.

Lemma accounts_with_tokens_lt h :
  Forall (fun i => (i < length h)%nat) (accounts_with_tokens h).
Proof. apply (refs_where_lt _ 0%nat). Qed.


Lemma allocates_app h1 ts1 h2 ts2 h3 :
  allocates h1 ts1 h2 -> allocates h2 ts2 h3 -> allocates h1 (ts1 ++ ts2) h3.
Proof.
  induction 1 as [|h i t ts h' Hi Hle _ IH]; simpl; [done |].
  intros H3. econstructor; eauto.
Qed.

Lemma allocates_one h i acc d v dbg :
  h !! i = Some acc -> v <= tokens acc ->
  allocates h [mkTransfer acc d v dbg] (<[i := set_tokens (tokens acc - v) acc]> h).
Proof. intros Hi Hv. econstructor; simpl; eauto. constructor. Qed.

Lemma allocates_length h ts h' : allocates h ts h' -> length h' = length h.
Proof.
  induction 1 as [|h i t ts h' _ _ _ IH]; [done |].
  by rewrite IH, length_insert.
Qed.



End StoreLemmas.

Section LoopLemmas.

Implicit Types (h : list Account) (i j : nat) (acc : Account)
  (refs : list nat) (g : Greedy) (d : string) (a : Decimal).

Lemma refs_valid_insert h refs i acc :
  refs_valid h refs -> refs_valid (<[i := acc]> h) refs.
Proof. unfold refs_valid. by rewrite length_insert. Qed.

(** *** The first loop *)

Lemma find_exact_Some h a refs i :
  find_exact h a refs = Some i -> i ∈ refs /\ tokens (h !!! i) = a.
Proof.
  induction refs as [|j refs IH]; simpl; [done |].
  destruct (Z.eqb_spec (tokens (h !!! j)) a) as [Heq|_].
  - intros [= <-]. split; [left | done].
  - intros Hf. destruct (IH Hf). split; [by right | done].
Qed.


(** *** The second loop *)

Lemma sweep_loop_allocates d refs h tr h' tr' :
  refs_valid h refs ->
  sweep_loop d refs h tr = (h', tr') ->
  exists new, tr' = tr ++ new /\ allocates h new h'.
Proof.
  revert h tr. induction refs as [|i refs IH]; intros h tr Hv; simpl.
  - intros [= <- <-]. exists []. split; [by rewrite app_nil_r | constructor].
  - inversion Hv as [|? ? Hi Hv']; subst. intros Hs.
    apply IH in Hs as (new & -> & Hal); [| by apply refs_valid_insert].
    eexists (_ :: new). split; [by rewrite <- app_assoc |].
    econstructor; simpl; [by apply lookup_total_Some | lia |].
    by rewrite Z.sub_diag.
Qed.



(** *** The third loop *)

(** One pass through the body takes from the live account it was given,
    at most its balance, and books what it took. *)
Lemma greedy_body_Continue d a i g g' :
  (i < length (g_store g))%nat ->
  greedy_body d a i g = Continue g' ->
  exists t,
    g_transfers g' = g_transfers g ++ [t] /\
    allocates (g_store g) [t] (g_store g') /\
    collected_amount g' = collected_amount g + amount t /\
    collected_amount g < a /\ collected_amount g' <= a.
Proof.
  intros Hi. unfold greedy_body.
  destruct (Z.eqb_spec (collected_amount g) a); [done |].
  destruct (Z.ltb_spec (collected_amount g) a); [| done].
  destruct (Z.ltb_spec (a - collected_amount g) (tokens (g_store g !!! i)));
    intros [= <-]; simpl; eexists; (split; [done |]);
    (split; [| simpl; lia]).
  - apply allocates_one; [by apply lookup_total_Some | lia].
  - replace 0 with (tokens (g_store g !!! i) - tokens (g_store g !!! i)) at 1 by lia.
    apply allocates_one; [by apply lookup_total_Some | lia].
Qed.

Lemma greedy_loop_allocates d a refs g h' r :
  refs_valid (g_store g) refs ->
  greedy_loop d a refs g = (h', r) ->
  exists new, allocates (g_store g) new h' /\
    forall tr, r = Ok tr ->
      tr = g_transfers g ++ new /\
      collected_amount g + sumZ (map amount new) = a.
Proof.
  revert g. induction refs as [|i refs IH]; intros g Hv; simpl.
  - destruct (Z.eqb_spec (collected_amount g) a); intros [= <- <-];
      exists []; (split; [constructor |]); intros tr [= <-]; simpl.
    split; [by rewrite app_nil_r | lia].
  - inversion Hv as [|? ? Hi Hv']; subst.
    destruct (greedy_body d a i g) as [g'| |] eqn:Hb.
    + destruct (greedy_body_Continue _ _ _ _ _ Hi Hb)
        as (t & Htr & Hal & Hcol & _ & _).
      intros Hl. apply IH in Hl as (new & Hal' & Hok).
      2:{ unfold refs_valid.
          by rewrite (allocates_length _ _ _ Hal). }
      exists (t :: new). split; [apply (allocates_app _ [t] _ _ _ Hal Hal') |].
      intros tr Hr. destruct (Hok _ Hr) as [-> Hsum].
      rewrite Htr, <- app_assoc. simpl. split; [done | lia].
    + intros [= <- <-]. exists []. split; [constructor |].
      intros tr [= <-]. rewrite app_nil_r. split; [done |].
      unfold greedy_body in Hb.
      destruct (Z.eqb_spec (collected_amount g) a); [simpl; lia |].
      destruct (collected_amount g <? a); [| done].
      by destruct (_ <? _) in Hb.
    + intros [= <- <-]. exists []. split; [constructor | done].
Qed.


End LoopLemmas.

Section StepLemmas.

Implicit Types (h : list Account) (s : PayoutStrategy) (d : string)
  (a : Decimal) (tr : list Transfer).

Lemma sweep_loop_frame d refs h tr :
  map frame (sweep_loop d refs h tr).1 = map frame h.
Proof.
  revert h tr. induction refs as [|i refs IH]; intros h tr; simpl; [done |].
  by rewrite IH, frame_insert.
Qed.

Lemma greedy_loop_frame d a refs g :
  map frame (greedy_loop d a refs g).1 = map frame (g_store g).
Proof.
  revert g. induction refs as [|i refs IH]; intros g; simpl.
  - by destruct (_ =? _).
  - unfold greedy_body.
    destruct (_ =? _); [done |]. destruct (_ <? _); [| done].
    destruct (_ <? _); rewrite IH; simpl; apply frame_insert.
Qed.

Lemma find_exact_lookup h a i :
  find_exact h a (accounts_with_tokens h) = Some i ->
  h !! i = Some (h !!! i) /\ tokens (h !!! i) = a.
Proof.
  intros [Hi Ha]%find_exact_Some. split; [| done].
  apply lookup_total_Some.
  apply (proj1 (Forall_forall _ _) (accounts_with_tokens_lt h) _ Hi).
Qed.

(** A call of [step] that returns has replayed its transfers on the
    store and has appended them, as one group, to [self.steps]. *)
Lemma step_Ok d a s s' tr :
  step d a s = (s', Ok tr) ->
  0 < a /\ allocates (store s) tr (store s') /\
  steps s' = steps s ++ [tr] /\ payout_list s' = payout_list s.
Proof.
  unfold step. destruct (Z.leb_spec a 0) as [|Hpos]; [done |].
  destruct (find_exact _ _ _) as [i|] eqn:Hf.
  - intros [= <- <-]. apply find_exact_lookup in Hf as [Hi Ha].
    repeat split; [done | | done..]. simpl.
    apply allocates_one; [done | lia].
  - destruct (_ =? _).
    + destruct (sweep_loop _ _ _ _) as [h' tr'] eqn:Hs. intros [= <- <-].
      apply sweep_loop_allocates in Hs as (new & -> & Hal);
        [| apply accounts_with_tokens_lt].
      repeat split; done.
    + destruct (greedy_loop _ _ _ _) as [h' [tr'|e]] eqn:Hg; [| done].
      intros [= <- <-].
      apply greedy_loop_allocates in Hg as (new & Hal & Hok);
        [| apply accounts_with_tokens_lt].
      destruct (Hok _ eq_refl) as [-> _]. repeat split; done.
Qed.

(** A call of [step] that raises has appended nothing. *)
Lemma step_Raise d a s s' e :
  step d a s = (s', Raise e) ->
  steps s' = steps s /\ payout_list s' = payout_list s.
Proof.
  unfold step. destruct (_ <=? _); [by intros [= <- _] |].
  destruct (find_exact _ _ _); [done |].
  destruct (_ =? _).
  - by destruct (sweep_loop _ _ _ _).
  - destruct (greedy_loop _ _ _ _) as [h' [tr'|e']]; [done |].
    by intros [= <- _].
Qed.


Lemma step_frame d a s :
  map frame (store (step d a s).1) = map frame (store s).
Proof.
  unfold step. destruct (_ <=? _); [done |].
  destruct (find_exact _ _ _) as [i|] eqn:Hf; simpl.
  - unfold store; simpl. apply frame_insert.
  - destruct (_ =? _).
    + pose proof (sweep_loop_frame d (accounts_with_tokens (store s)) (store s) []) as Hfr.
      destruct (sweep_loop _ _ _ _) as [h' tr']. done.
    + pose proof (greedy_loop_frame d a (accounts_with_tokens (store s))
                    (mkGreedy (store s) [] 0)) as Hfr.
      destruct (greedy_loop _ _ _ _) as [h' [tr'|e]]; done.
Qed.

(** The loop of [generate_steps] appends one group per payout it gets
    through, and the groups replay, one after the other, on the store. *)
Lemma generate_steps_loop_allocates pl s s' r :
  generate_steps_loop pl s = (s', r) ->
  payout_list s' = payout_list s /\
  exists groups h'',
    steps s' = steps s ++ groups /\
    allocates (store s) (concat groups) h'' /\
    (r = Ok tt -> h'' = store s' /\ length groups = length pl).
Proof.
  revert s. induction pl as [|p pl IH]; intros s; simpl.
  - intros [= <- <-]. split; [done |]. exists [], (store s).
    rewrite app_nil_r. repeat split; constructor.
  - destruct (step _ _ s) as [s1 [tr|e]] eqn:Hst.
    + apply step_Ok in Hst as (_ & Hal & Hsteps & Hpl).
      intros Hl. apply IH in Hl as (Hpl' & groups & h'' & Hsteps' & Hal' & Hok).
      split; [congruence |]. exists (tr :: groups), h''.
      rewrite Hsteps', Hsteps, <- app_assoc. simpl.
      split; [done |]. split; [by eapply allocates_app |].
      intros Hr. destruct (Hok Hr) as [-> ->]. done.
    + apply step_Raise in Hst as [Hsteps Hpl].
      intros [= <- <-]. split; [done |]. exists [], (store s).
      rewrite app_nil_r. repeat split; [done | constructor | done | done].
Qed.


Lemma generate_steps_loop_frame pl s :
  map frame (store (generate_steps_loop pl s).1) = map frame (store s).
Proof.
  revert s. induction pl as [|p pl IH]; intros s; simpl; [done |].
  pose proof (step_frame (Payout.dest p) (Payout.amount p) s) as Hfr.
  destruct (step _ _ s) as [s1 [tr|e]]; simpl in *; [| done].
  by rewrite IH.
Qed.

End StepLemmas.

Section SessionLemmas.

Implicit Types (h : list Account) (s : PayoutStrategy).

Lemma allocates_amounts h ts h' :
  allocates h ts h' -> Forall (fun t => amount t <= tokens (src t)) ts.
Proof. induction 1; by constructor. Qed.




Lemma frame_eq_Forall2 h h' :
  map frame h' = map frame h -> Forall2 same_frame h h'.
Proof.
  revert h'. induction h as [|x h IH]; intros [|y h'] Heq; simplify_eq/=;
    constructor; [| by apply IH].
  unfold same_frame, frame in *. by simplify_eq.
Qed.

End SessionLemmas.

(** ** Planning within the budget returns *)

Section Progress.

Implicit Types (h : list Account) (s : PayoutStrategy) (refs : list nat)
  (g : Greedy) (d : string) (a : Decimal).

Lemma refs_where_ge p k l : Forall (fun i => (k <= i)%nat) (refs_where p k l).
Proof.
  revert k. induction l as [|x l IH]; intros k; simpl; [constructor |].
  assert (Forall (fun i => (k <= i)%nat) (refs_where p (S k) l)).
  { eapply Forall_impl; [apply IH | simpl; intros; lia]. }
  destruct (p x); [constructor; [lia | done] | done].
Qed.

Lemma refs_where_NoDup p k l : NoDup (refs_where p k l).
Proof.
  revert k. induction l as [|x l IH]; intros k; simpl; [constructor |].
  destruct (p x); [| apply IH]. constructor; [| apply IH].
  intros Hin. pose proof (refs_where_ge p (S k) l) as Hge.
  apply (proj1 (Forall_forall _ _) Hge) in Hin. lia.
Qed.










End Progress.

(** ** The planner *)



(** C7.  The transfers a call of [step] records replay on the store the
    call started from: each one is taken from a live account whose record,
    as all earlier transfers left it, is the transfer's ['src'], and its
    amount does not exceed the balance of that record.  The replay ends in
    the store the call leaves. *)
Theorem step_within_live_balance d a s s' transfers :
  step d a s = (s', Ok transfers) ->
  allocates (store s) transfers (store s') /\
  Forall (fun t => amount t <= tokens (src t)) transfers.
Proof.
  intros Hst. apply step_Ok in Hst as (_ & Hal & _).
  split; [done | by eapply allocates_amounts].
Qed.

Lemma step_within_live_balance_witness :
  exists s' transfers,
    step "X" 130 (mkStrategy ledger3 [Payout.mk "X" 130] []) = (s', Ok transfers) /\
    allocates (accounts ledger3) transfers (store s') /\
    Forall (fun t => amount t <= tokens (src t)) transfers.
Proof.
  eexists _, _. split; [reflexivity |].
  exact (step_within_live_balance "X" 130 (mkStrategy ledger3 [Payout.mk "X" 130] [])
           _ _ eq_refl).
Defined.

(** The same over a planning session: all the transfers in [self.steps]
    after [generate_steps], group after group, replay on the store the
    session started from. *)
Lemma generate_steps_allocates s s' r :
  steps s = [] ->
  generate_steps s = (s', r) ->
  exists h'',
    allocates (store s) (concat (steps s')) h'' /\
    (forall plan, r = Ok plan -> h'' = store s').
Proof.
  unfold generate_steps. intros Hnil.
  destruct (generate_steps_loop _ _) as [s1 r1] eqn:Hl.
  apply generate_steps_loop_allocates in Hl
    as (_ & groups & h'' & Hsteps & Hal & Hok).
  rewrite Hnil in Hsteps. simpl in Hsteps.
  destruct r1 as [[]|e].
  - destruct (Hok eq_refl) as [-> _].
    rewrite Hsteps.
    destruct groups; intros [= <- <-]; exists (store s1); rewrite Hsteps; done.
  - intros [= <- <-]. exists h''. rewrite Hsteps. done.
Qed.





(** C10.  Planning assigns to [tokens] only: after any call of [step], and
    after any run of [generate_steps], returned or raised, the wallet holds
    the same accounts in the same order, each with its [addr], [currency],
    [bandwidth] and [bandwidth_limit] unchanged. *)
Theorem planning_assigns_tokens_only s :
  (forall d a, Forall2 same_frame (store s) (store (step d a s).1)) /\
  Forall2 same_frame (store s) (store (generate_steps s).1).
Proof.
  split.
  - intros d a. apply frame_eq_Forall2, step_frame.
  - apply frame_eq_Forall2. unfold generate_steps.
    pose proof (generate_steps_loop_frame (payout_list s) s) as Hfr.
    destruct (generate_steps_loop _ _) as [s1 [[]|e]]; [| done].
    by destruct (steps s1).
Qed.

(** ** Construction, fee estimate and fee seeding *)

Section FeeLemmas.

Implicit Types (chain : Chain) (cfg : Config) (accs : list Account).


Lemma sum_of_shortfalls_le cfg accs :
  Forall (fun acc => 0 <= currency acc) accs ->
  sum_of_shortfalls cfg accs <= Z.of_nat (length accs) * TX_FEE cfg.
Proof.
  unfold sum_of_shortfalls.
  induction 1 as [|acc accs Hacc _ IH]; simpl length; simpl sumZ; lia.
Qed.

Lemma executor_map_seed_lookup chain cfg k accs txs rs :
  executor_map_seed chain cfg k accs = (txs, rs) ->
  length txs = length accs /\ length rs = length accs /\
  forall n acc, accs !! n = Some acc ->
    txs !! n = Some (seed_tx chain cfg acc) /\
    rs !! n = Some (seed_result chain cfg (k + n) acc).
Proof.
  revert k txs rs. induction accs as [|a accs IH]; intros k txs rs; simpl.
  - intros [= <- <-]. repeat split; done.
  - destruct (executor_map_seed chain cfg (S k) accs) as [txs' rs'] eqn:He.
    intros [= <- <-]. destruct (IH _ _ _ He) as (Hl1 & Hl2 & Hn).
    simpl. split; [lia |]. split; [lia |].
    intros [|n] acc Hacc; simplify_eq/=.
    + by rewrite Nat.add_0_r.
    + replace (k + S n)%nat with (S k + n)%nat by lia. by apply Hn.
Qed.

Lemma accounts_need_seeding_spec cfg plan acc :
  acc ∈ accounts_need_seeding cfg plan <->
  exists t, t ∈ concat plan /\ src t = acc /\ currency acc < TX_FEE cfg.
Proof.
  unfold accounts_need_seeding.
  change (map src) with (fmap (M:=list) src). rewrite list_elem_of_fmap.
  split.
  - intros (t & -> & Ht). apply list_elem_of_In, filter_In in Ht as [Ht Hc].
    exists t. split; [by apply list_elem_of_In |]. split; [done |].
    by apply Z.ltb_lt.
  - intros (t & Ht & <- & Hc). exists t. split; [done |].
    apply list_elem_of_In, filter_In. split; [by apply list_elem_of_In |].
    by apply Z.ltb_lt.
Qed.

End FeeLemmas.




(** C3, as the code has it.  [estimate_fee] returns the number N of
    transfers in [self.steps] and the fee [N * (TX_FEE + 2)]: the
    per-transfer fee is the configured [TX_FEE], the surcharge for
    activation and transfer is the constant 2 of the source.  With a plan
    at hand the call returns and changes nothing. *)
Theorem estimate_fee_spec cfg s :
  (steps s <> [] ->
   let n := Z.of_nat (length (concat (steps s))) in
   estimate_fee cfg s = (s, Ok (mkFeeEstimate n (n * (TX_FEE cfg + 2))))) /\
  (forall s' est, estimate_fee cfg s = (s', Ok est) ->
     accounts_num est = Z.of_nat (length (concat (steps s'))) /\
     fee est = accounts_num est * (TX_FEE cfg + 2)).
Proof.
  unfold estimate_fee. split.
  - destruct (steps s) eqn:Hs; [done |]. intros _. simpl. by rewrite Hs.
  - intros s' est.
    destruct (match steps s with [] => _ | _ => _ end) as [s1 [plan|e]];
      [| done].
    intros [= <- <-]. done.
Qed.

Lemma estimate_fee_spec_witness :
  let s := (generate_steps (mkStrategy ledger3 [Payout.mk "X" 130] [])).1 in
  estimate_fee (mkConfig 40 4 3) s = (s, Ok (mkFeeEstimate 2 84)).
Proof.
  apply (estimate_fee_spec (mkConfig 40 4 3)
           (generate_steps (mkStrategy ledger3 [Payout.mk "X" 130] [])).1).
  discriminate.
Defined.

(** C3 as stated fails: the fee does not follow an activation fee taken
    from the configuration; whatever is configured, the surcharge is 2. *)
Lemma estimate_fee_activation_fee_not_configurable :
  ~ (forall (cfg : Config) (activationFee : Decimal) s s' est,
       estimate_fee cfg s = (s', Ok est) ->
       fee est = accounts_num est * (TX_FEE cfg + activationFee)).
Proof.
  intros Hclaim.
  specialize (Hclaim (mkConfig 40 4 3) 1
    (generate_steps (mkStrategy ledger3 [Payout.mk "X" 100] [])).1 _ _ eq_refl).
  discriminate Hclaim.
Qed.

(** C2, as the code has it.  [seed_payout_fees] raises
    [InsufficientSeedFunds], having handed no transfer to the chain,
    exactly when the balance of the fee-deposit address is less than
    [TX_FEE] times the number of transfers of the plan whose source holds
    less than [TX_FEE]; otherwise it returns.  That bound is at least the
    sum of the shortfalls when no source has a negative native balance, so
    a balance below the sum of the shortfalls is refused too. *)
Theorem seed_payout_fees_float_check chain cfg s :
  let balance := get_account_balance chain (fee_deposit_public chain) in
  let need := accounts_need_seeding cfg (steps s) in
  (balance < Z.of_nat (length need) * TX_FEE cfg ->
   seed_payout_fees chain cfg s = ([], Raise InsufficientSeedFunds)) /\
  (Z.of_nat (length need) * TX_FEE cfg <= balance ->
   exists txs rs, seed_payout_fees chain cfg s = (txs, Ok rs)) /\
  (Forall (fun acc => 0 <= currency acc) need ->
   balance < sum_of_shortfalls cfg need ->
   seed_payout_fees chain cfg s = ([], Raise InsufficientSeedFunds)).
Proof.
  simpl. unfold seed_payout_fees.
  set (balance := get_account_balance chain (fee_deposit_public chain)).
  set (need := accounts_need_seeding cfg (steps s)).
  destruct (Z.ltb_spec balance (Z.of_nat (length need) * TX_FEE cfg)) as [Hlt|Hge].
  - split; [done |]. split; [lia | done].
  - split; [lia |]. split.
    + intros _. destruct (executor_map_seed _ _ _ _) as [txs rs]. by eexists _, _.
    + intros Hnn Hlt. pose proof (sum_of_shortfalls_le cfg need Hnn). lia.
Qed.

Lemma seed_payout_fees_float_check_witness :
  seed_payout_fees (chain_of 3 (Confirmed "t")) (mkConfig 5 4 3)
    (planned [mkAccount "A" 100 1 0 1500] [Payout.mk "X" 100])
  = ([], Raise InsufficientSeedFunds).
Proof.
  apply (seed_payout_fees_float_check (chain_of 3 (Confirmed "t")) (mkConfig 5 4 3)
           (planned [mkAccount "A" 100 1 0 1500] [Payout.mk "X" 100])).
  - repeat constructor. simpl. lia.
  - vm_compute. reflexivity.
Defined.

(** C2 as stated fails: with [TX_FEE] 5, one source holding 1 and a
    fee-deposit balance of 4, the balance covers the only shortfall (4),
    and seeding is refused all the same. *)
Lemma seed_payout_fees_refuses_covered_shortfalls :
  let chain := chain_of 4 (Confirmed "t") in
  let cfg := mkConfig 5 4 3 in
  let s := planned [mkAccount "A" 100 1 0 1500] [Payout.mk "X" 100] in
  ~ (get_account_balance chain (fee_deposit_public chain)
     < sum_of_shortfalls cfg (accounts_need_seeding cfg (steps s))) /\
  seed_payout_fees chain cfg s = ([], Raise InsufficientSeedFunds).
Proof. split; [vm_compute; discriminate | reflexivity]. Qed.

(** C5, as the code has it.  When [seed_payout_fees] returns, it has handed
    to the chain one transfer per transfer of the plan whose source record
    holds less than [TX_FEE], in the order of the plan: from the
    fee-deposit address to that source, for the shortfall.  An account that
    is the source of several transfers of the plan is seeded once for each
    of them.  No transfer goes to a source whose record holds [TX_FEE] or
    more. *)
Theorem seed_payout_fees_transfers chain cfg s txs rs :
  seed_payout_fees chain cfg s = (txs, Ok rs) ->
  txs = map (seed_tx chain cfg) (accounts_need_seeding cfg (steps s)) /\
  (forall acc, acc ∈ accounts_need_seeding cfg (steps s) <->
     exists t, t ∈ concat (steps s) /\ src t = acc /\ currency acc < TX_FEE cfg) /\
  (forall tx, tx ∈ txs ->
     exists t, t ∈ concat (steps s) /\ tx_to tx = addr (src t) /\
       currency (src t) < TX_FEE cfg).
Proof.
  unfold seed_payout_fees. destruct (_ <? _); [done |].
  destruct (executor_map_seed _ _ _ _) as [txs' rs'] eqn:He. intros [= <- <-].
  apply executor_map_seed_lookup in He as (Hl1 & _ & Hn).
  assert (Htxs : txs' = map (seed_tx chain cfg) (accounts_need_seeding cfg (steps s))).
  { apply list_eq. intros n.
    change (map (seed_tx chain cfg)) with (fmap (M:=list) (seed_tx chain cfg)).
    rewrite list_lookup_fmap.
    destruct (accounts_need_seeding cfg (steps s) !! n) as [acc|] eqn:Hacc; simpl.
    - by apply Hn.
    - apply lookup_ge_None. apply lookup_ge_None in Hacc. lia. }
  split; [done |]. split; [apply accounts_need_seeding_spec |].
  intros tx Htx. rewrite Htxs in Htx.
  change (map (seed_tx chain cfg)) with (fmap (M:=list) (seed_tx chain cfg)) in Htx.
  apply list_elem_of_fmap in Htx as (acc & -> & Hacc).
  apply accounts_need_seeding_spec in Hacc as (t & Ht & <- & Hc).
  by exists t.
Qed.

Lemma seed_payout_fees_transfers_witness :
  exists txs,
    txs = map (seed_tx (chain_of 100 (Confirmed "t")) (mkConfig 5 4 3))
            (accounts_need_seeding (mkConfig 5 4 3)
               (steps (planned [mkAccount "A" 100 1 0 1500; mkAccount "B" 60 7 0 1500]
                         [Payout.mk "X" 130]))) /\
    txs = [mkSeedTx "F" "A" 4000000].
Proof.
  eexists. split; [| reflexivity].
  apply (seed_payout_fees_transfers (chain_of 100 (Confirmed "t")) (mkConfig 5 4 3)
           (planned [mkAccount "A" 100 1 0 1500; mkAccount "B" 60 7 0 1500]
              [Payout.mk "X" 130]) _ [Some (mkSeedResult (mkAccount "A" 100 1 0 1500) "t")]).
  reflexivity.
Defined.

(** C5 as stated fails: an account that two payouts draw on is the source
    of two transfers of the plan and gets two seeding transfers. *)
Lemma seed_payout_fees_seeds_account_twice :
  let chain := chain_of 100 (Confirmed "t") in
  let cfg := mkConfig 5 4 3 in
  let s := planned [mkAccount "A" 100 0 0 1500]
             [Payout.mk "X" 30; Payout.mk "Y" 20] in
  (seed_payout_fees chain cfg s).1 =
    [mkSeedTx "F" "A" 5000000; mkSeedTx "F" "A" 5000000] /\
  ~ NoDup (map tx_to (seed_payout_fees chain cfg s).1).
Proof.
  split; [reflexivity |]. vm_compute.
  intros Hnd. apply NoDup_cons in Hnd as [Hnot _]. apply Hnot. left.
Qed.

(** C6, as the code has it.  Once the balance check has passed,
    [seed_payout_fees] returns whatever the chain answers: it hands one
    transfer to the chain for every account to seed, whether or not the
    seeding of another one failed, and returns a list with one entry per
    account to seed, in order.  The entry is the dict with the account and
    the transaction id when the transfer was confirmed and [None] when
    signing, broadcast or confirmation failed. *)
Theorem seed_payout_fees_results chain cfg s :
  let need := accounts_need_seeding cfg (steps s) in
  Z.of_nat (length need) * TX_FEE cfg
    <= get_account_balance chain (fee_deposit_public chain) ->
  exists txs rs,
    seed_payout_fees chain cfg s = (txs, Ok rs) /\
    length txs = length need /\ length rs = length need /\
    forall k acc, need !! k = Some acc ->
      txs !! k = Some (seed_tx chain cfg acc) /\
      rs !! k = Some (seed_result chain cfg k acc).
Proof.
  simpl. unfold seed_payout_fees. intros Hge.
  destruct (Z.ltb_spec (get_account_balance chain (fee_deposit_public chain))
              (Z.of_nat (length (accounts_need_seeding cfg (steps s))) * TX_FEE cfg));
    [lia |].
  destruct (executor_map_seed _ _ _ _) as [txs rs] eqn:He.
  exists txs, rs. split; [done |].
  apply executor_map_seed_lookup in He as (Hl1 & Hl2 & Hn).
  split; [done |]. split; [done |]. exact Hn.
Qed.

Lemma seed_payout_fees_results_witness :
  exists txs rs,
    seed_payout_fees (chain_of 100 ConfirmTimeout) (mkConfig 5 4 3)
      (planned [mkAccount "A" 100 1 0 1500; mkAccount "B" 60 2 0 1500]
         [Payout.mk "X" 130]) = (txs, Ok rs) /\
    length txs = 2%nat /\ length rs = 2%nat.
Proof.
  destruct (seed_payout_fees_results (chain_of 100 ConfirmTimeout) (mkConfig 5 4 3)
              (planned [mkAccount "A" 100 1 0 1500; mkAccount "B" 60 2 0 1500]
                 [Payout.mk "X" 130]))
    as (txs & rs & Hs & Hl1 & Hl2 & _).
  - vm_compute. discriminate.
  - exists txs, rs. repeat split; assumption.
Defined.

(** C6 as stated fails: the entry of a failed seeding is [None] and names
    no address.  Two plans that draw on different accounts return the same
    list when seeding fails. *)
Lemma seed_payout_fees_failure_names_no_address :
  let chain := chain_of 100 BroadcastRejected in
  let cfg := mkConfig 5 4 3 in
  let sA := planned [mkAccount "A" 100 0 0 1500] [Payout.mk "X" 100] in
  let sB := planned [mkAccount "B" 100 0 0 1500] [Payout.mk "X" 100] in
  map addr (accounts_need_seeding cfg (steps sA)) = ["A"] /\
  map addr (accounts_need_seeding cfg (steps sB)) = ["B"] /\
  (seed_payout_fees chain cfg sA).2 = Ok [None] /\
  (seed_payout_fees chain cfg sB).2 = Ok [None] /\
  map entry_addr [None] <> [Some "A"].
Proof. repeat split; try reflexivity. simpl. discriminate. Qed.

(** ** More on the planner *)

Section ShapeLemmas.

Implicit Types (h : list Account) (i j : nat) (acc : Account)
  (refs : list nat) (g : Greedy) (d : string) (a : Decimal).

Lemma refs_where_lookup p k l i :
  i ∈ refs_where p k l ->
  exists acc, l !! (i - k)%nat = Some acc /\ p acc = true /\ (k <= i)%nat.
Proof.
  revert k. induction l as [|x l IH]; intros k; simpl; [by intros ?%elem_of_nil |].
  assert (Hrec : i ∈ refs_where p (S k) l ->
    exists acc, (x :: l) !! (i - k)%nat = Some acc /\ p acc = true /\ (k <= i)%nat).
  { intros (acc & Hacc & Hp & Hle)%IH. exists acc.
    replace (i - k)%nat with (S (i - S k)) by lia. simpl.
    repeat split; [done | done | lia]. }
  destruct (p x) eqn:Hpx; [| done].
  intros [-> | Hin]%elem_of_cons; [| by apply Hrec].
  exists x. rewrite Nat.sub_diag. done.
Qed.

Lemma accounts_with_tokens_positive h :
  refs_positive h (accounts_with_tokens h).
Proof.
  apply Forall_forall. intros i Hi.
  apply refs_where_lookup in Hi as (acc & Hacc & Hp & _).
  rewrite Nat.sub_0_r in Hacc.
  rewrite (list_lookup_total_correct _ _ _ Hacc). by apply Z.ltb_lt.
Qed.

Lemma refs_positive_insert h refs i acc :
  i ∉ refs -> refs_positive h refs -> refs_positive (<[i := acc]> h) refs.
Proof.
  unfold refs_positive. rewrite !Forall_forall. intros Hnot Hpos j Hj.
  rewrite list_lookup_total_insert_ne; [by apply Hpos | by intros ->].
Qed.

(** The records behind the references of [refs_where] are the accounts
    that pass the test, in order. *)
Lemma refs_where_records p l pre :
  map (fun i => (pre ++ l) !!! i) (refs_where p (length pre) l) = List.filter p l.
Proof.
  revert pre. induction l as [|x l IH]; intros pre; simpl; [done |].
  specialize (IH (pre ++ [x])).
  rewrite <- app_assoc, length_app, Nat.add_1_r in IH. simpl in IH.
  destruct (p x); simpl; [| done].
  by rewrite list_lookup_total_middle, IH.
Qed.

Lemma accounts_with_tokens_records h :
  map (fun i => h !!! i) (accounts_with_tokens h)
  = List.filter (fun acc => 0 <? tokens acc) h.
Proof. apply (refs_where_records _ h []). Qed.

(** *** The second loop, in closed form *)

Lemma sweep_loop_closed d refs h tr :
  NoDup refs ->
  (sweep_loop d refs h tr).2
  = tr ++ map (fun i => mkTransfer (h !!! i) d (tokens (h !!! i)) "all to 1") refs.
Proof.
  revert h tr. induction refs as [|i refs IH]; intros h tr Hnd; simpl.
  - by rewrite app_nil_r.
  - apply NoDup_cons in Hnd as [Hnot Hnd]. rewrite IH by done.
    rewrite <- app_assoc. simpl. do 2 f_equal.
    apply map_ext_in. intros j Hj%list_elem_of_In.
    rewrite list_lookup_total_insert_ne; [done | by intros ->].
Qed.


Lemma sweep_loop_exact_store d refs h tr j acc' :
  refs_valid h refs ->
  (sweep_loop d refs h tr).1 !! j = Some acc' ->
  (j ∈ refs -> exists acc, h !! j = Some acc /\ acc' = set_tokens 0 acc) /\
  (j ∉ refs -> h !! j = Some acc').
Proof.
  revert h tr. induction refs as [|i refs IH]; intros h tr Hv; simpl.
  - intros Hj. split; [by intros ?%elem_of_nil | done].
  - inversion Hv as [|? ? Hi Hv']; subst. intros Hj.
    destruct (IH _ _ (refs_valid_insert _ _ i _ Hv') Hj) as [Hin Hout].
    assert (Hzero : forall acc1, <[i := set_tokens 0 (h !!! i)]> h !! j = Some acc1 ->
              exists acc, h !! j = Some acc /\ set_tokens 0 acc1 = set_tokens 0 acc).
    { intros acc1. destruct (decide (i = j)) as [->|Hne].
      - rewrite list_lookup_insert_eq by done. intros [= <-].
        exists (h !!! j). split; [by apply lookup_total_Some | done].
      - rewrite list_lookup_insert_ne by done. intros Hacc1. by exists acc1. }
    split.
    + intros Hji. destruct (decide (j ∈ refs)) as [Hjr|Hnot].
      * destruct (Hin Hjr) as (acc1 & Hacc1 & ->).
        destruct (Hzero _ Hacc1) as (acc & Hacc & Heq). by exists acc.
      * apply elem_of_cons in Hji as [-> | ?]; [| done].
        specialize (Hout Hnot). rewrite list_lookup_insert_eq in Hout by done.
        simplify_eq. exists (h !!! i). split; [by apply lookup_total_Some | done].
    + intros [Hne Hnot]%not_elem_of_cons.
      specialize (Hout Hnot). by rewrite list_lookup_insert_ne in Hout.
Qed.

Lemma sweep_loop_length d refs h tr :
  length (sweep_loop d refs h tr).1 = length h.
Proof.
  revert h tr. induction refs as [|i refs IH]; intros h tr; simpl; [done |].
  by rewrite IH, length_insert.
Qed.

End ShapeLemmas.

Section GreedyShape.

Implicit Types (h : list Account) (i j : nat) (acc : Account)
  (refs : list nat) (g : Greedy) (d : string) (a : Decimal).

Lemma drawn_other h1 h h' i j t acc :
  i <> j -> h1 = <[i := acc]> h -> drawn h1 h' j t -> drawn h h' j t.
Proof.
  intros Hne -> (Hsrc & Hpos & Hle & Hh'). repeat split; try done.
  by rewrite list_lookup_insert_ne in Hsrc.
Qed.

(** One pass of the third loop that goes on: the transfer it books. *)
Lemma greedy_body_drawn d a i g g' :
  (i < length (g_store g))%nat ->
  0 < tokens (g_store g !!! i) ->
  greedy_body d a i g = Continue g' ->
  exists t,
    g_transfers g' = g_transfers g ++ [t] /\
    g_store g' = <[i := set_tokens (tokens (src t) - amount t) (src t)]> (g_store g) /\
    src t = g_store g !!! i /\ dst t = d /\
    0 < amount t /\ amount t <= tokens (src t) /\
    collected_amount g' = collected_amount g + amount t /\
    collected_amount g' <= a /\
    (takes_all t \/ collected_amount g' = a).
Proof.
  intros Hi Hpos. unfold greedy_body.
  destruct (Z.eqb_spec (collected_amount g) a); [done |].
  destruct (Z.ltb_spec (collected_amount g) a); [| done].
  destruct (Z.ltb_spec (a - collected_amount g) (tokens (g_store g !!! i)));
    intros [= <-]; simpl; eexists; (split; [done |]); simpl.
  - repeat split; try done; lia.
  - rewrite Z.sub_diag. repeat split; try done; try lia. by left.
Qed.

(** Once the amount is collected the loop returns without another
    transfer. *)
Lemma greedy_loop_collected d a refs g :
  collected_amount g = a ->
  greedy_loop d a refs g = (g_store g, Ok (g_transfers g)).
Proof.
  intros Heq. destruct refs as [|i refs]; simpl.
  - by rewrite (proj2 (Z.eqb_eq _ _) Heq).
  - unfold greedy_body. by rewrite (proj2 (Z.eqb_eq _ _) Heq).
Qed.

Lemma greedy_loop_shape d a refs g h' r :
  NoDup refs -> refs_valid (g_store g) refs -> refs_positive (g_store g) refs ->
  greedy_loop d a refs g = (h', r) ->
  exists used new,
    used `prefix_of` refs /\
    Forall2 (drawn (g_store g) h') used new /\
    (forall j, j ∉ used -> h' !! j = g_store g !! j) /\
    Forall takes_all (removelast new) /\
    Forall (fun t => dst t = d) new /\
    (forall tr, r = Ok tr -> tr = g_transfers g ++ new).
Proof.
  revert g. induction refs as [|i refs IH]; intros g Hnd Hv Hpos; simpl.
  - intros Hl. exists [], [].
    assert (Hh : h' = g_store g) by (by destruct (_ =? _); simplify_eq).
    subst h'. split_and!; try done; try constructor; try apply prefix_nil.
    intros tr ->. rewrite app_nil_r. by destruct (_ =? _); simplify_eq.
  - apply NoDup_cons in Hnd as [Hnot Hnd].
    inversion Hv as [|? ? Hi Hv']; subst. inversion Hpos as [|? ? Hpi Hpos']; subst.
    destruct (greedy_body d a i g) as [g'| |] eqn:Hb.
    + destruct (greedy_body_drawn _ _ _ _ _ Hi Hpi Hb)
        as (t & Htr & Hst & Hsrc & Hdst & Hamt & Hle & Hcol & _ & Hlast).
      intros Hl.
      assert (Hshape : exists used' new',
        used' `prefix_of` refs /\ Forall2 (drawn (g_store g') h') used' new' /\
        (forall j, j ∉ used' -> h' !! j = g_store g' !! j) /\
        Forall takes_all (removelast new') /\
        Forall (fun t => dst t = d) new' /\
        (forall tr, r = Ok tr -> tr = g_transfers g' ++ new') /\
        (new' <> [] -> takes_all t)).
      { destruct Hlast as [Hall | Hdone].
        - destruct (IH g') as (u & n & H1 & H2 & H3 & H4 & H5 & H6); try done.
          + rewrite Hst. by apply refs_valid_insert.
          + rewrite Hst. by apply refs_positive_insert.
          + exists u, n. split_and!; done.
        - rewrite (greedy_loop_collected _ _ _ _ Hdone) in Hl. simplify_eq.
          exists [], []. split_and!; try done; try constructor;
            try apply prefix_nil.
          intros tr [= <-]. by rewrite app_nil_r. }
      destruct Hshape as (used' & new' & Hpre & Hdr & Hout & Hfull & Hd & Hok & Hne).
      assert (Hiu : i ∉ used').
      { intros Hin. apply Hnot. destruct Hpre as [k ->].
        apply elem_of_app. by left. }
      exists (i :: used'), (t :: new'). split_and!.
      * by apply prefix_cons.
      * constructor.
        -- split_and!; try done.
           ++ rewrite Hsrc. by apply lookup_total_Some.
           ++ rewrite (Hout _ Hiu), Hst. by apply list_lookup_insert_eq.
        -- apply Forall2_same_length_lookup.
           apply Forall2_same_length_lookup in Hdr as [Hlen Hdr].
           split; [done |]. intros n j t' Hj Ht'.
           assert (Hji : i <> j).
           { intros ->. apply Hiu. by eapply list_elem_of_lookup_2. }
           eapply drawn_other; [exact Hji | exact Hst | by eapply Hdr].
      * intros j [Hne' Hnot']%not_elem_of_cons.
        rewrite (Hout _ Hnot'), Hst. by apply list_lookup_insert_ne.
      * destruct new' as [|t' new']; [constructor |].
        change (removelast (t :: t' :: new')) with (t :: removelast (t' :: new')).
        constructor; [by apply Hne | done].
      * by constructor.
      * intros tr Hr. rewrite (Hok _ Hr), Htr, <- app_assoc. done.
    + intros [= <- <-]. exists [], []. split_and!; try done; try constructor;
        try apply prefix_nil.
      intros tr [= <-]. by rewrite app_nil_r.
    + intros [= <- <-]. exists [], []. split_and!; try done; try constructor;
        apply prefix_nil.
Qed.

End GreedyShape.

Section StepShape.

Implicit Types (h : list Account) (i j : nat) (s : PayoutStrategy)
  (refs : list nat) (d : string) (a : Decimal).

Lemma Forall_removelast {A} (P : A -> Prop) (l : list A) :
  Forall P l -> Forall P (removelast l).
Proof.
  induction 1 as [|x l Hx Hl IH]; [constructor |].
  destruct l; [constructor |]. by constructor.
Qed.

Lemma elem_of_sublist_singleton (i : nat) (l : list nat) :
  i ∈ l -> [i] `sublist_of` l.
Proof.
  induction 1 as [i l | i k l _ IH].
  - apply sublist_skip, sublist_nil_l.
  - by apply sublist_cons.
Qed.

(** What a call of [step] does to the store and which transfers it makes,
    whether it returns or raises: the transfers are drawn, in the order of
    the wallet, from different accounts that hold tokens; each account
    drawn on is debited by the amount taken, the others keep their
    record. *)
Lemma step_shape d a s s' r :
  step d a s = (s', r) ->
  exists used new,
    used `sublist_of` accounts_with_tokens (store s) /\
    Forall2 (drawn (store s) (store s')) used new /\
    (forall j, j ∉ used -> store s' !! j = store s !! j) /\
    Forall takes_all (removelast new) /\
    Forall (fun t => dst t = d) new /\
    (forall tr, r = Ok tr -> tr = new /\ 0 < a).
Proof.
  unfold step, store. destruct (Z.leb_spec a 0) as [|Hpos].
  { intros [= <- <-]. exists [], [].
    split_and!; try done; try constructor. apply sublist_nil_l. }
  destruct (find_exact _ _ _) as [i|] eqn:Hf.
  - intros [= <- <-]. pose proof (find_exact_Some _ _ _ _ Hf) as [Hin _].
    apply find_exact_lookup in Hf as [Hi Ha].
    exists [i], [mkTransfer (accounts (wallet s) !!! i) d a "1 to 1"].
    split_and!.
    + by apply elem_of_sublist_singleton.
    + constructor; [| constructor]. unfold drawn. simpl.
      split_and!; [done | done | lia |].
      apply list_lookup_insert_eq. by eapply lookup_lt_Some.
    + intros j Hj. simpl. apply list_lookup_insert_ne.
      intros ->. apply Hj. left.
    + constructor.
    + by repeat constructor.
    + by intros tr [= <-].
  - destruct (_ =? _).
    + pose proof (sweep_loop_closed d (accounts_with_tokens (accounts (wallet s))) (accounts (wallet s)) []
                    (refs_where_NoDup _ _ _)) as Htr.
      pose proof (fun j acc' =>
        sweep_loop_exact_store d (accounts_with_tokens (accounts (wallet s))) (accounts (wallet s)) [] j acc'
          (accounts_with_tokens_lt _)) as Hst.
      pose proof (sweep_loop_length d (accounts_with_tokens (accounts (wallet s))) (accounts (wallet s)) [])
        as Hlen.
      destruct (sweep_loop _ _ _ _) as [h' tr']. simpl in *. subst tr'.
      intros [= <- <-]. eexists (accounts_with_tokens (accounts (wallet s))), _.
      split_and!; [done | | | | | by intros tr [= <-]].
      * apply Forall2_same_length_lookup. split; [by rewrite length_map |].
        intros n i t Hi Ht.
        change (map ?f) with (fmap (M:=list) f) in Ht.
        rewrite list_lookup_fmap, Hi in Ht. simpl in Ht. simplify_eq.
        assert (Hin : i ∈ accounts_with_tokens (accounts (wallet s)))
          by (by eapply list_elem_of_lookup_2).
        assert (Hlt : (i < length (accounts (wallet s)))%nat).
        { by apply (proj1 (Forall_forall _ _) (accounts_with_tokens_lt (accounts (wallet s)))). }
        assert (Hp : 0 < tokens (accounts (wallet s) !!! i)).
        { by apply (proj1 (Forall_forall _ _) (accounts_with_tokens_positive (accounts (wallet s)))). }
        unfold drawn. simpl.
        split_and!; [by apply lookup_total_Some | done | lia |].
        destruct (lookup_lt_is_Some_2 h' i) as [acc' Hacc']; [lia |].
        destruct (Hst _ _ Hacc') as [Hin' _].
        destruct (Hin' Hin) as (acc & Hacc & ->).
        rewrite Hacc', Z.sub_diag.
        by rewrite (list_lookup_total_correct _ _ _ Hacc).
      * intros j Hj. simpl.
        destruct (h' !! j) as [acc'|] eqn:Hacc'.
        -- destruct (Hst _ _ Hacc') as [_ Hout]. by rewrite Hout.
        -- apply lookup_ge_None in Hacc'. symmetry. apply lookup_ge_None. lia.
      * apply Forall_removelast, Forall_forall. intros t Ht%list_elem_of_In.
        apply in_map_iff in Ht as (i & <- & _). done.
      * apply Forall_forall. intros t Ht%list_elem_of_In.
        apply in_map_iff in Ht as (i & <- & _). done.
    + destruct (greedy_loop _ _ _ _) as [h' r'] eqn:Hg.
      apply greedy_loop_shape in Hg
        as (used & new & [k Hpre] & Hdr & Hout & Hfull & Hd & Hok);
        [| apply refs_where_NoDup | apply accounts_with_tokens_lt
         | apply accounts_with_tokens_positive ].
      simpl in *.
      assert (Hsub : used `sublist_of` accounts_with_tokens (accounts (wallet s))).
      { rewrite Hpre. by apply sublist_inserts_r. }
      destruct r' as [tr'|e]; intros [= <- <-]; exists used, new;
        (split_and!; [done | done | done | done | done |]).
      * intros tr [= <-]. split; [by apply Hok | done].
      * done.
Qed.

End StepShape.

Section OutcomeLemmas.

Implicit Types (h : list Account) (i j : nat) (s : PayoutStrategy)
  (refs : list nat) (g : Greedy) (d : string) (a : Decimal).







End OutcomeLemmas.

Section LoweredLemmas.

Implicit Types (h : list Account) (s : PayoutStrategy).

Lemma lowered_refl acc : lowered acc acc.
Proof. by split. Qed.

Lemma lowered_trans acc1 acc2 acc3 :
  lowered acc1 acc2 -> lowered acc2 acc3 -> lowered acc1 acc3.
Proof. unfold lowered. intros [? ?] [? ?]. split; [lia | auto]. Qed.

Lemma Forall2_lowered_refl h : Forall2 lowered h h.
Proof. induction h; constructor; [apply lowered_refl | done]. Qed.

Lemma Forall2_lowered_trans h1 h2 h3 :
  Forall2 lowered h1 h2 -> Forall2 lowered h2 h3 -> Forall2 lowered h1 h3.
Proof.
  intros H12. revert h3. induction H12 as [|a b h1 h2 Hab _ IH]; intros h3 H23.
  - by inversion H23.
  - inversion H23 as [|? c ? h3' Hbc H23']; subst.
    constructor; [by eapply lowered_trans | by apply IH].
Qed.

Lemma step_lowers d a s : Forall2 lowered (store s) (store (step d a s).1).
Proof.
  destruct (step d a s) as [s' r] eqn:Hst. simpl.
  pose proof (step_frame d a s) as Hfr. rewrite Hst in Hfr. simpl in Hfr.
  apply (f_equal length) in Hfr. rewrite !length_map in Hfr.
  apply step_shape in Hst as (used & new & _ & Hdr & Hout & _).
  apply Forall2_same_length_lookup. split; [done |].
  intros j acc acc' Hacc Hacc'.
  destruct (decide (j ∈ used)) as [Hin|Hnot].
  - apply list_elem_of_lookup in Hin as [n Hn].
    destruct (Forall2_lookup_l _ _ _ _ _ Hdr Hn) as (t & _ & Hs & Hp & Hle & Hs').
    simplify_eq. unfold lowered. simpl. lia.
  - rewrite (Hout _ Hnot) in Hacc'. simplify_eq. apply lowered_refl.
Qed.

Lemma generate_steps_loop_lowers pl s :
  Forall2 lowered (store s) (store (generate_steps_loop pl s).1).
Proof.
  revert s. induction pl as [|p pl IH]; intros s; simpl.
  - apply Forall2_lowered_refl.
  - pose proof (step_lowers (Payout.dest p) (Payout.amount p) s) as Hl.
    destruct (step _ _ s) as [s1 [tr|e]]; simpl in *; [| done].
    eapply Forall2_lowered_trans; [exact Hl | apply IH].
Qed.



End LoweredLemmas.

(** ** Further properties of the planner *)














(** X9.  Planning only lowers balances: after any call of [step] and any run
    of [generate_steps], returned or raised, no account holds more tokens
    than before, and an account whose balance was not negative has not
    become negative. *)
Theorem planning_lowers_balances s :
  (forall d a, Forall2 lowered (store s) (store (step d a s).1)) /\
  Forall2 lowered (store s) (store (generate_steps s).1).
Proof.
  split; [intros; apply step_lowers |]. unfold generate_steps.
  pose proof (generate_steps_loop_lowers (payout_list s) s) as Hl.
  destruct (generate_steps_loop _ _) as [s1 [[]|e]]; [| done].
  by destruct (steps s1).
Qed.

(** X10.  [estimate_fee] plans at most once: when a call returns, a second call
    on the planner it leaves returns the same estimate and changes
    nothing. *)
Theorem estimate_fee_again cfg s s' est :
  estimate_fee cfg s = (s', Ok est) ->
  estimate_fee cfg s' = (s', Ok est).
Proof.
  unfold estimate_fee.
  destruct (steps s) as [|grp groups] eqn:Hs.
  - unfold generate_steps.
    destruct (generate_steps_loop _ _) as [s1 [[]|e]]; [| done].
    destruct (steps s1) as [|grp groups] eqn:Hs1; [done |].
    intros [= <- <-]. by rewrite !Hs1.
  - intros [= <- <-]. by rewrite !Hs.
Qed.

Lemma estimate_fee_again_witness :
  exists s' est,
    estimate_fee (mkConfig 40 4 3) (mkStrategy ledger3 [Payout.mk "X" 130] [])
    = (s', Ok est) /\
    estimate_fee (mkConfig 40 4 3) s' = (s', Ok est).
Proof.
  eexists _, _. split; [reflexivity |].
  exact (estimate_fee_again (mkConfig 40 4 3)
           (mkStrategy ledger3 [Payout.mk "X" 130] []) _ _ eq_refl).
Defined.

(** ** More on planning failures and on seeding *)

Section MoreLemmas.

Implicit Types (chain : Chain) (cfg : Config) (accs : list Account)
  (s : PayoutStrategy).

Lemma executor_map_seed_txs chain cfg k accs :
  (executor_map_seed chain cfg k accs).1 = map (seed_tx chain cfg) accs.
Proof.
  revert k. induction accs as [|acc accs IH]; intros k; simpl; [done |].
  specialize (IH (S k)).
  destruct (executor_map_seed chain cfg (S k) accs) as [txs rs]. simpl in *.
  by rewrite IH.
Qed.

Lemma accounts_need_seeding_short cfg plan :
  Forall (fun acc => currency acc < TX_FEE cfg) (accounts_need_seeding cfg plan).
Proof.
  apply Forall_forall. intros acc (t & _ & _ & Hc)%accounts_need_seeding_spec. done.
Qed.

Lemma seed_tx_amounts chain cfg accs :
  sumZ (map tx_amount (map (seed_tx chain cfg) accs))
  = sum_of_shortfalls cfg accs * 1000000.
Proof.
  unfold sum_of_shortfalls. induction accs as [|acc accs IH]; simpl; [done |].
  rewrite IH. lia.
Qed.


End MoreLemmas.



(** X11.  Seeding stays within the balance it read.  When [seed_payout_fees]
    returns, every transfer it handed to the chain leaves the fee-deposit
    address for a positive amount, and, if no source has a negative native
    balance, the amounts together do not exceed the balance read for the
    fee-deposit address (in the unit of the transfers, a millionth). *)
Theorem seed_payout_fees_within_balance chain cfg s txs rs :
  seed_payout_fees chain cfg s = (txs, Ok rs) ->
  Forall (fun tx => tx_from tx = fee_deposit_public chain /\ 0 < tx_amount tx) txs /\
  (Forall (fun acc => 0 <= currency acc) (accounts_need_seeding cfg (steps s)) ->
   sumZ (map tx_amount txs)
   <= get_account_balance chain (fee_deposit_public chain) * 1000000).
Proof.
  unfold seed_payout_fees.
  destruct (Z.ltb_spec (get_account_balance chain (fee_deposit_public chain))
              (Z.of_nat (length (accounts_need_seeding cfg (steps s))) * TX_FEE cfg));
    [done |].
  pose proof (executor_map_seed_txs chain cfg 0
                (accounts_need_seeding cfg (steps s))) as Htxs.
  destruct (executor_map_seed _ _ _ _) as [txs' rs']. simpl in Htxs.
  intros [= <- <-]. subst txs'. split.
  - apply Forall_forall. intros tx Htx%list_elem_of_In.
    apply in_map_iff in Htx as (acc & <- & Hacc%list_elem_of_In).
    pose proof (proj1 (Forall_forall _ _) (accounts_need_seeding_short cfg (steps s))
                  _ Hacc) as Hc.
    simpl in *. split; [done | lia].
  - intros Hnn. rewrite seed_tx_amounts.
    pose proof (sum_of_shortfalls_le cfg _ Hnn). lia.
Qed.

Lemma seed_payout_fees_within_balance_witness :
  exists txs rs,
    seed_payout_fees (chain_of 100 (Confirmed "t")) (mkConfig 5 4 3)
      (planned [mkAccount "A" 100 1 0 1500; mkAccount "B" 60 2 0 1500]
         [Payout.mk "X" 130]) = (txs, Ok rs) /\
    sumZ (map tx_amount txs) <= 100 * 1000000.
Proof.
  eexists _, _. split; [reflexivity |].
  apply (seed_payout_fees_within_balance (chain_of 100 (Confirmed "t")) (mkConfig 5 4 3)
           (planned [mkAccount "A" 100 1 0 1500; mkAccount "B" 60 2 0 1500]
              [Payout.mk "X" 130]) _ _ eq_refl).
  repeat constructor; simpl; lia.
Defined.

(** ** The views of the wallet and repeated planning *)

Section ViewLemmas.

Implicit Types (h l : list Account) (s : PayoutStrategy).

Lemma refs_where_partition (p q : Account -> bool) k l :
  Forall (fun acc => q acc = negb (p acc)) l ->
  refs_where p k l ++ refs_where q k l ≡ₚ seq k (length l).
Proof.
  intros Hall. revert k. induction Hall as [|x l Hx _ IH]; intros k; simpl; [done |].
  rewrite Hx. destruct (p x); simpl.
  - by rewrite IH.
  - rewrite <- Permutation_middle. by rewrite IH.
Qed.



End ViewLemmas.

(** X19.  The two token views split the wallet: over non-negative
    balances every position of the wallet is in exactly one of
    [accounts_with_tokens] and [accounts_without_tokens]. *)
Theorem token_views_partition (h : list Account) :
  wallet_ok h ->
  accounts_with_tokens h ++ accounts_without_tokens h ≡ₚ seq 0 (length h) /\
  forall i, i ∈ accounts_with_tokens h -> i ∈ accounts_without_tokens h -> False.
Proof.
  intros Hok.
  assert (Hperm : accounts_with_tokens h ++ accounts_without_tokens h
                  ≡ₚ seq 0 (length h)).
  { apply refs_where_partition. eapply Forall_impl; [exact Hok |].
    simpl. intros acc Hacc.
    destruct (Z.ltb_spec 0 (tokens acc)), (Z.eqb_spec (tokens acc) 0); simpl;
      try done; lia. }
  split; [done |]. intros i Hw Hwo.
  assert (Hnd : NoDup (accounts_with_tokens h ++ accounts_without_tokens h)).
  { rewrite Hperm. apply NoDup_seq. }
  apply NoDup_app in Hnd as (_ & Hdis & _). by apply (Hdis i).
Qed.

Lemma token_views_partition_witness :
  accounts_with_tokens [mkAccount "A" 100 0 0 1500; mkAccount "B" 0 0 0 1500;
                        mkAccount "C" 40 0 0 1500]
  ++ accounts_without_tokens [mkAccount "A" 100 0 0 1500; mkAccount "B" 0 0 0 1500;
                              mkAccount "C" 40 0 0 1500]
  ≡ₚ seq 0 3.
Proof.
  apply (token_views_partition [mkAccount "A" 100 0 0 1500; mkAccount "B" 0 0 0 1500;
                                mkAccount "C" 40 0 0 1500]).
  repeat constructor; simpl; lia.
Defined.



(** X21.  Planning twice plans twice.  [generate_steps] does not start from
    an empty [self.steps]: a second run on a planner that has its plan
    plans the same payout list again over what is left in the wallet, and
    the plan it returns is the first plan followed by one more group per
    payout. *)
Theorem generate_steps_again_appends s s1 s2 plan1 plan2 :
  steps s = [] ->
  generate_steps s = (s1, Ok plan1) ->
  generate_steps s1 = (s2, Ok plan2) ->
  length plan1 = length (payout_list s) /\
  exists groups,
    plan2 = plan1 ++ groups /\ length groups = length (payout_list s).
Proof.
  unfold generate_steps. intros Hnil.
  destruct (generate_steps_loop (payout_list s) s) as [s1' [[]|e]] eqn:Hl1; [| done].
  apply generate_steps_loop_allocates in Hl1
    as (Hpl & groups1 & h1 & Hst1 & _ & Hlen1).
  destruct (Hlen1 eq_refl) as [_ Hlen1']. rewrite Hnil in Hst1. simpl in Hst1.
  rewrite Hst1. destruct groups1 as [|grp1 groups1]; [done |].
  intros [= <- <-]. rewrite Hpl.
  destruct (generate_steps_loop (payout_list s) s1') as [s2' [[]|e]] eqn:Hl2; [| done].
  apply generate_steps_loop_allocates in Hl2
    as (_ & groups2 & h2 & Hst2 & _ & Hlen2).
  destruct (Hlen2 eq_refl) as [_ Hlen2']. rewrite Hst1 in Hst2.
  rewrite Hst2. simpl. intros [= <- <-].
  split; [done |]. by exists groups2.
Qed.

Lemma generate_steps_again_appends_witness :
  exists s1 s2 plan1 plan2 groups,
    generate_steps (mkStrategy ledger3 [Payout.mk "X" 30] []) = (s1, Ok plan1) /\
    generate_steps s1 = (s2, Ok plan2) /\
    plan2 = plan1 ++ groups /\ length groups = 1%nat.
Proof.
  destruct (generate_steps_again_appends
              (mkStrategy ledger3 [Payout.mk "X" 30] []) _ _ _ _
              eq_refl eq_refl eq_refl) as (_ & groups & Hplan & Hlen).
  eexists _, _, _, _, groups. split; [reflexivity |]. split; [reflexivity |].
  split; [exact Hplan | exact Hlen].
Defined.

(** ** Refreshing the wallet *)

Section RefreshLemmas.

Import Refresh.

Implicit Types (c : Client) (scale : N -> Decimal) (cfg : Config)
  (l : list Account) (x : Account).

Lemma insert_by_tokens_perm x l : insert_by_tokens x l ≡ₚ x :: l.
Proof.
  induction l as [|y l IH]; simpl; [done |].
  destruct (_ <=? _); [done |]. rewrite IH. apply Permutation_swap.
Qed.

Lemma sort_by_tokens_perm l : sort_by_tokens l ≡ₚ l.
Proof.
  induction l as [|x l IH]; simpl; [done |].
  by rewrite insert_by_tokens_perm, IH.
Qed.

Lemma insert_by_tokens_sorted x l :
  StronglySorted by_tokens_desc l ->
  StronglySorted by_tokens_desc (insert_by_tokens x l).
Proof.
  induction 1 as [|y l Hl IH Hy]; simpl; [by repeat constructor |].
  destruct (Z.leb_spec (tokens y) (tokens x)).
  - constructor; [by constructor |]. constructor; [done |].
    eapply Forall_impl; [exact Hy |]. unfold by_tokens_desc. simpl. intros; lia.
  - constructor; [done |]. rewrite insert_by_tokens_perm.
    constructor; [unfold by_tokens_desc; lia | done].
Qed.

Lemma sort_by_tokens_sorted l : StronglySorted by_tokens_desc (sort_by_tokens l).
Proof.
  induction l as [|x l IH]; simpl; [constructor |].
  by apply insert_by_tokens_sorted.
Qed.

Lemma insert_by_tokens_holding v x l :
  holding v (insert_by_tokens x l) = holding v (x :: l).
Proof.
  unfold holding. induction l as [|y l IH]; simpl; [done |].
  destruct (Z.leb_spec (tokens y) (tokens x)); [done |]. simpl in *.
  rewrite IH.
  destruct (Z.eqb_spec (tokens x) v), (Z.eqb_spec (tokens y) v); try done. lia.
Qed.

Lemma sort_by_tokens_holding v l : holding v (sort_by_tokens l) = holding v l.
Proof.
  induction l as [|x l IH]; simpl; [done |].
  rewrite insert_by_tokens_holding. unfold holding in *. simpl. by rewrite IH.
Qed.

Lemma attempt_Done c scale k a r acc :
  attempt c scale k a r = Done acc ->
  addr acc = a /\ bandwidth_limit acc = 1500 /\ exists raw, tokens acc = scale raw.
Proof.
  unfold attempt. destruct (balanceOf _ _ _ _) as [raw| |]; [| done..].
  destruct (get_account_balance _ _ _ _) as [cur| |]; [| done |].
  - destruct (get_account_resource _ _ _ _) as [res| |]; [| done |];
      intros [= <-]; simpl; eauto.
  - intros [= <-]; simpl; eauto.
Qed.

(** What the loop of [get] returns: the account of the first pass that
    does not end in a caught [UnknownError]. *)
Lemma get_loop_Got c scale k a left r acc :
  get_loop c scale k a left r = Got acc <->
  exists n, (n < left)%nat /\ attempt c scale k a (r + n) = Done acc /\
    forall m, (m < n)%nat -> attempt c scale k a (r + m) = Retry.
Proof.
  revert r. induction left as [|left IH]; intros r; simpl.
  - split; [done | intros (n & ? & _); lia].
  - destruct (attempt c scale k a r) as [|acc'|] eqn:Hat.
    + rewrite IH. split.
      * intros (n & Hn & Hd & Hr). exists (S n).
        replace (r + S n)%nat with (S r + n)%nat by lia.
        split; [lia |]. split; [done |]. intros [|m] Hm.
        -- by rewrite Nat.add_0_r.
        -- replace (r + S m)%nat with (S r + m)%nat by lia. apply Hr. lia.
      * intros ([|n] & Hn & Hd & Hr).
        -- rewrite Nat.add_0_r in Hd. congruence.
        -- exists n. replace (S r + n)%nat with (r + S n)%nat by lia.
           split; [lia |]. split; [done |]. intros m Hm.
           replace (S r + m)%nat with (r + S m)%nat by lia. apply Hr. lia.
    + split.
      * intros [= ->]. exists 0%nat. rewrite Nat.add_0_r.
        split; [lia |]. split; [done |]. intros; lia.
      * intros ([|n] & Hn & Hd & Hr).
        -- rewrite Nat.add_0_r in Hd. congruence.
        -- specialize (Hr 0%nat). rewrite Nat.add_0_r in Hr.
           rewrite Hr in Hat by lia. done.
    + split; [done |]. intros ([|n] & Hn & Hd & Hr).
      * rewrite Nat.add_0_r in Hd. congruence.
      * specialize (Hr 0%nat). rewrite Nat.add_0_r in Hr.
        rewrite Hr in Hat by lia. done.
Qed.

Lemma get_loop_exceeded c scale k a left r :
  get_loop c scale k a left r = Failed (RetriesExceeded a) <->
  forall m, (m < left)%nat -> attempt c scale k a (r + m) = Retry.
Proof.
  revert r. induction left as [|left IH]; intros r; simpl.
  - split; [intros; lia | done].
  - destruct (attempt c scale k a r) as [|acc'|] eqn:Hat.
    + rewrite IH. split.
      * intros Hr [|m] Hm; [by rewrite Nat.add_0_r |].
        replace (r + S m)%nat with (S r + m)%nat by lia. apply Hr. lia.
      * intros Hr m Hm. replace (S r + m)%nat with (r + S m)%nat by lia.
        apply Hr. lia.
    + split; [done |]. intros Hr. specialize (Hr 0%nat).
      rewrite Nat.add_0_r in Hr. rewrite Hr in Hat by lia. done.
    + split; [done |]. intros Hr. specialize (Hr 0%nat).
      rewrite Nat.add_0_r in Hr. rewrite Hr in Hat by lia. done.
Qed.

Lemma get_Got_account c scale cfg k a acc :
  get c scale cfg k a = Got acc ->
  addr acc = a /\ bandwidth_limit acc = 1500 /\ exists raw, tokens acc = scale raw.
Proof.
  unfold get. intros (n & _ & Hd & _)%get_loop_Got. by eapply attempt_Done.
Qed.

Lemma executor_map_get_Got c scale cfg k keys accs :
  executor_map_get c scale cfg k keys = Got accs <->
  Forall2 (fun '(n, a) acc => get c scale cfg n a = Got acc)
    (zip (seq k (length keys)) keys) accs.
Proof.
  revert k accs. induction keys as [|a keys IH]; intros k accs; simpl.
  - split; [intros [= <-]; constructor | by intros ->%Forall2_nil_inv_l].
  - destruct (get c scale cfg k a) as [acc|e] eqn:Hg.
    + destruct (executor_map_get c scale cfg (S k) keys) as [accs'|e] eqn:He.
      * split.
        -- intros [= <-]. constructor; [done | by apply IH].
        -- intros (acc1 & accs1 & Hg1 & Hrest & ->)%Forall2_cons_inv_l.
           apply IH in Hrest. congruence.
      * split; [done |].
        intros (acc1 & accs1 & Hg1 & Hrest & ->)%Forall2_cons_inv_l.
        apply IH in Hrest. congruence.
    + split; [done |].
      intros (acc1 & accs1 & Hg1 & Hrest & ->)%Forall2_cons_inv_l. congruence.
Qed.

Lemma executor_map_get_accounts c scale cfg k keys accs :
  executor_map_get c scale cfg k keys = Got accs ->
  map addr accs = keys /\
  Forall (fun acc => bandwidth_limit acc = 1500 /\ exists raw, tokens acc = scale raw) accs.
Proof.
  revert k accs. induction keys as [|a keys IH]; intros k accs; simpl.
  - by intros [= <-].
  - destruct (get c scale cfg k a) as [acc|e] eqn:Hg; [| done].
    destruct (executor_map_get c scale cfg (S k) keys) as [accs'|e] eqn:He; [| done].
    intros [= <-]. destruct (IH _ _ He) as [Ha Hall].
    destruct (get_Got_account _ _ _ _ _ _ Hg) as (Haddr & Hbl & Hraw).
    simpl. split; [by rewrite Haddr, Ha | by constructor].
Qed.

(** In a list ordered by tokens, the accounts with tokens come first. *)
Lemma sorted_refs_where l k :
  StronglySorted by_tokens_desc l ->
  refs_where (fun acc => 0 <? tokens acc) k l
  = seq k (length (List.filter (fun acc => 0 <? tokens acc) l)).
Proof.
  intros Hs. revert k. induction Hs as [|x l _ IH Hx]; intros k; simpl; [done |].
  destruct (Z.ltb_spec 0 (tokens x)); simpl; [by rewrite IH |].
  assert (Hnone : List.filter (fun acc => 0 <? tokens acc) l = []).
  { clear IH. induction Hx as [|y l Hy _ IH']; simpl; [done |].
    unfold by_tokens_desc in Hy.
    destruct (Z.ltb_spec 0 (tokens y)); [lia | done]. }
  rewrite IH, Hnone. done.
Qed.

End RefreshLemmas.

(** X12.  What [refresh_accounts] returns.  When it returns, it has fetched one
    account per public key, in the order of the keys, and returns these
    accounts reordered so that no account holds more tokens than one
    before it; accounts that hold the same keep the order of their
    keys. *)
Theorem refresh_accounts_sorted c scale cfg public_keys accs :
  Refresh.refresh_accounts c scale cfg public_keys = Refresh.Got accs ->
  exists fetched,
    map addr fetched = public_keys /\
    accs ≡ₚ fetched /\
    StronglySorted by_tokens_desc accs /\
    forall v, holding v accs = holding v fetched.
Proof.
  unfold Refresh.refresh_accounts.
  destruct (Refresh.executor_map_get _ _ _ _ _) as [fetched|e] eqn:He; [| done].
  intros [= <-]. exists fetched.
  apply executor_map_get_accounts in He as [Hkeys _].
  split_and!; [done | | |].
  - apply sort_by_tokens_perm.
  - apply sort_by_tokens_sorted.
  - intros v. apply sort_by_tokens_holding.
Qed.

Lemma refresh_accounts_sorted_witness :
  exists accs fetched,
    Refresh.refresh_accounts (client_of bal3) Z.of_N (mkConfig 40 4 3)
      ["A"; "B"; "C"; "D"] = Refresh.Got accs /\
    map addr accs = ["B"; "A"; "C"; "D"] /\
    map addr fetched = ["A"; "B"; "C"; "D"] /\
    accs ≡ₚ fetched /\
    StronglySorted by_tokens_desc accs /\
    forall v, holding v accs = holding v fetched.
Proof.
  destruct (refresh_accounts_sorted (client_of bal3) Z.of_N (mkConfig 40 4 3)
              ["A"; "B"; "C"; "D"] _ eq_refl) as (fetched & H).
  eexists _, fetched. split; [reflexivity |]. split; [reflexivity | exact H].
Defined.

(** X13.  How [get] retries.  [get] returns the account of the first pass that
    does not end in a caught [UnknownError], provided that pass is among
    the first [CONCURRENT_MAX_RETRIES]; it raises 'CONCURRENT_MAX_RETRIES
    exeeded' exactly when all of these passes end in a caught
    [UnknownError], so always when the configured number is 0. *)
Theorem get_retries c scale cfg k a :
  (forall acc,
     Refresh.get c scale cfg k a = Refresh.Got acc <->
     exists n, (n < CONCURRENT_MAX_RETRIES cfg)%nat /\
       Refresh.attempt c scale k a n = Refresh.Done acc /\
       forall m, (m < n)%nat -> Refresh.attempt c scale k a m = Refresh.Retry) /\
  (Refresh.get c scale cfg k a = Refresh.Failed (Refresh.RetriesExceeded a) <->
   forall m, (m < CONCURRENT_MAX_RETRIES cfg)%nat ->
     Refresh.attempt c scale k a m = Refresh.Retry).
Proof.
  unfold Refresh.get. split.
  - intros acc. apply (get_loop_Got c scale k a _ 0%nat).
  - apply (get_loop_exceeded c scale k a _ 0%nat).
Qed.

Lemma get_retries_witness :
  Refresh.get (flaky_client 2) Z.of_N (mkConfig 40 4 3) 0 "A"
  = Refresh.Got (mkAccount "A" 50 0 0 1500) /\
  Refresh.get (flaky_client 3) Z.of_N (mkConfig 40 4 3) 0 "A"
  = Refresh.Failed (Refresh.RetriesExceeded "A").
Proof.
  split.
  - apply (get_retries (flaky_client 2) Z.of_N (mkConfig 40 4 3) 0%nat "A").
    exists 2%nat. split; [simpl; lia |]. split; [reflexivity |].
    intros [|[|m]] Hm; [reflexivity | reflexivity | lia].
  - apply (get_retries (flaky_client 3) Z.of_N (mkConfig 40 4 3) 0%nat "A").
    simpl. intros [|[|[|m]]] Hm; [reflexivity | reflexivity | reflexivity | lia].
Defined.

(** X14.  All or nothing.  [refresh_accounts] returns exactly when [get]
    returns for every public key; one key whose [get] raises makes the
    whole refresh raise. *)
Theorem refresh_accounts_all_or_nothing c scale cfg public_keys :
  (exists accs, Refresh.refresh_accounts c scale cfg public_keys = Refresh.Got accs) <->
  (forall k a, public_keys !! k = Some a ->
     exists acc, Refresh.get c scale cfg k a = Refresh.Got acc).
Proof.
  unfold Refresh.refresh_accounts.
  assert (Hmap : forall keys k0,
    (exists accs, Refresh.executor_map_get c scale cfg k0 keys = Refresh.Got accs) <->
    (forall k a, keys !! k = Some a ->
       exists acc, Refresh.get c scale cfg (k0 + k) a = Refresh.Got acc)).
  { induction keys as [|a keys IH]; intros k0; simpl.
    - split; [done | by eexists].
    - split.
      + intros [accs Hg].
        destruct (Refresh.get c scale cfg k0 a) as [acc|e] eqn:Hget; [| done].
        destruct (Refresh.executor_map_get c scale cfg (S k0) keys)
          as [accs'|e] eqn:He; [| done].
        intros [|k] a' Hk; simplify_eq/=.
        * rewrite Nat.add_0_r. by eexists.
        * replace (k0 + S k)%nat with (S k0 + k)%nat by lia.
          eapply (proj1 (IH (S k0))); [by eexists | done].
      + intros Hall. destruct (Hall 0%nat a eq_refl) as [acc Hacc].
        rewrite Nat.add_0_r in Hacc. rewrite Hacc.
        destruct (proj2 (IH (S k0))) as [accs ->]; [| by eexists].
        intros k a' Hk. replace (S k0 + k)%nat with (k0 + S k)%nat by lia.
        by apply Hall. }
  specialize (Hmap public_keys 0%nat). simpl in Hmap. rewrite <- Hmap.
  destruct (Refresh.executor_map_get _ _ _ _ _) as [accs|e].
  - split; intros _; by eexists.
  - split; intros [accs [=]].
Qed.



(** X16.  In a freshly refreshed wallet the accounts with tokens are the first
    ones: [accounts_with_tokens] is an initial stretch of the wallet, so
    the loops of [step] meet the balances from the largest down. *)
Theorem refreshed_accounts_with_tokens_first c scale cfg public_keys accs :
  Refresh.refresh_accounts c scale cfg public_keys = Refresh.Got accs ->
  accounts_with_tokens accs
  = seq 0 (length (List.filter (fun acc => 0 <? tokens acc) accs)) /\
  StronglySorted Z.ge (map (fun i => tokens (accs !!! i)) (accounts_with_tokens accs)).
Proof.
  unfold Refresh.refresh_accounts.
  destruct (Refresh.executor_map_get _ _ _ _ _) as [fetched|e]; [| done].
  intros [= <-].
  pose proof (sort_by_tokens_sorted fetched) as Hs.
  split; [by apply sorted_refs_where |].
  rewrite <- (map_map (fun i => Refresh.sort_by_tokens fetched !!! i) tokens).
  rewrite accounts_with_tokens_records.
  generalize dependent (Refresh.sort_by_tokens fetched). clear. intros l Hs.
  induction Hs as [|x l Hl IH Hx]; simpl; [constructor |].
  destruct (0 <? tokens x); simpl; [| done].
  constructor; [done |].
  apply Forall_forall. intros v Hv%list_elem_of_In.
  apply in_map_iff in Hv as (y & <- & Hy). apply filter_In in Hy as [Hy _].
  apply list_elem_of_In in Hy.
  pose proof (proj1 (Forall_forall _ _) Hx _ Hy) as Hxy.
  unfold by_tokens_desc in Hxy. lia.
Qed.

Lemma refreshed_accounts_with_tokens_first_witness :
  exists accs,
    Refresh.refresh_accounts (client_of bal3) Z.of_N (mkConfig 40 4 3)
      ["C"; "A"; "B"] = Refresh.Got accs /\
    accounts_with_tokens accs = [0%nat; 1%nat] /\
    StronglySorted Z.ge (map (fun i => tokens (accs !!! i)) (accounts_with_tokens accs)).
Proof.
  eexists. split; [reflexivity |].
  exact (refreshed_accounts_with_tokens_first (client_of bal3) Z.of_N
           (mkConfig 40 4 3) ["C"; "A"; "B"] _ eq_refl).
Defined.

(** ** The event filter *)

Section EventLemmas.

Import Events.

Implicit Types (FILTER : gmap string string) (msg v : JSON) (a : string).

Lemma eq_str_true v s : eq_str v s = true <-> v = JString s.
Proof.
  destruct v; simpl; try (split; [done | by intros [=]]).
  rewrite String.eqb_eq. split; [by intros -> | by intros [= ->]].
Qed.

(** What [apply_filter] accepts, in terms of the message. *)
Lemma apply_filter_accepts FILTER msg :
  apply_filter FILTER msg = true <->
  exists a, transfer_to msg a /\ is_Some (FILTER !! a).
Proof.
  unfold apply_filter, cond_of, transfer_to. split.
  - destruct msg as [| | | | |members]; simpl; try done.
    destruct (lookup_member "triggerName" members) as [t|] eqn:Ht; simpl; [| done].
    destruct (lookup_member "eventName" members) as [e|] eqn:He; simpl; [| done].
    destruct (lookup_member "topicMap" members) as [tm|] eqn:Htm; simpl; [| done].
    destruct tm as [| | | | |topics]; simpl; try done.
    destruct (lookup_member "to" topics) as [to|] eqn:Hto; simpl; [| done].
    destruct to as [| | |a| |]; simpl; try done;
      try (by rewrite !andb_false_r).
    rewrite andb_true_r.
    intros [Ht' [He' Hin%bool_decide_eq_true]%andb_true_iff]%andb_true_iff.
    apply eq_str_true in Ht' as ->. apply eq_str_true in He' as ->.
    exists a. split; [| done]. by exists members, topics.
  - intros (a & (members & topics & -> & Ht & He & Htm & Hto) & Hin). simpl.
    rewrite Ht, He, Htm. simpl. rewrite Hto. simpl.
    rewrite (bool_decide_eq_true_2 _ Hin). done.
Qed.

End EventLemmas.

(** X17.  What the filter accepts.  [apply_filter] returns [True] exactly for a
    dict that reports a 'Transfer' contract event to an address listed in
    [FILTER]; for everything else, a missing key, a value of another type,
    a message that is not a dict, it returns [False] and does not raise.
    With an empty [FILTER] it accepts nothing. *)
Theorem apply_filter_spec (FILTER : gmap string string) (msg : Events.JSON) :
  (Events.apply_filter FILTER msg = true <->
   exists a, transfer_to msg a /\ is_Some (FILTER !! a)) /\
  Events.apply_filter ∅ msg = false.
Proof.
  split; [apply apply_filter_accepts |].
  apply not_true_is_false. intros (a & _ & Hin)%apply_filter_accepts.
  rewrite lookup_empty in Hin. by destruct Hin.
Qed.

Lemma apply_filter_spec_witness :
  Events.apply_filter ({["TA" := "USDT"]} : gmap string string) event_TA = true.
Proof.
  apply (apply_filter_spec {["TA" := "USDT"]} event_TA).
  exists "TA". split.
  - eexists _, _. split; [reflexivity |]. repeat split; reflexivity.
  - rewrite lookup_singleton_eq. by eexists.
Defined.

(** X18.  What one message makes [ws_main] do.  A message is saved only if it
    parses to an event the filter accepts that has a ['transactionId'];
    the notification is sent only after [save_event] has returned, always
    then, with the same transaction id and with the symbol [FILTER] gives
    for the event's ['to'] address: the lookup [FILTER[...]] of an accepted
    event never fails. *)
Theorem on_message_effects (FILTER : gmap string string) (save_ok : bool)
    (parsed : option Events.JSON) (message : string) :
  Events.on_message FILTER save_ok parsed message = []
  /\ (forall event txid, parsed = Some event ->
        Events.apply_filter FILTER event = true ->
        Events.getitem event "transactionId" = Some txid -> False)
  \/
  exists event txid a symbol,
    parsed = Some event /\
    Events.getitem event "transactionId" = Some txid /\
    transfer_to event a /\ FILTER !! a = Some symbol /\
    Events.on_message FILTER save_ok parsed message
    = Events.SaveEvent txid message ::
      (if save_ok then [Events.Notify symbol txid] else []).
Proof.
  unfold Events.on_message. destruct parsed as [event|]; [| left; by split].
  destruct (Events.apply_filter FILTER event) eqn:Hf.
  2:{ left. split; [done |]. intros ? ? [= <-]. by rewrite Hf. }
  destruct (Events.getitem event "transactionId") as [txid|] eqn:Htx.
  2:{ left. split; [done |]. intros ? ? [= <-] _. by rewrite Htx. }
  right. apply apply_filter_accepts in Hf as (a & Htr & [symbol Hsym]).
  exists event, txid, a, symbol. split_and!; try done.
  destruct Htr as (members & topics & -> & _ & _ & Htm & Hto).
  simpl. rewrite Htm. simpl. rewrite Hto. simpl. by rewrite Hsym.
Qed.

Lemma on_message_effects_witness :
  Events.on_message ({["TA" := "USDT"]} : gmap string string) true
    (Some event_TA) "raw"
  = [Events.SaveEvent (Events.JString "tx1") "raw";
     Events.Notify "USDT" (Events.JString "tx1")].
Proof.
  destruct (on_message_effects {["TA" := "USDT"]} true (Some event_TA) "raw")
    as [[_ Hnot] | (event & txid & a & symbol & Hev & Htx & Htr & Hsym & ->)].
  - exfalso. apply (Hnot event_TA (Events.JString "tx1") eq_refl);
      [| reflexivity].
    apply apply_filter_accepts. exists "TA". split.
    + eexists _, _. split; [reflexivity |]. repeat split; reflexivity.
    + rewrite lookup_singleton_eq. by eexists.
  - injection Hev as <-. injection Htx as <-.
    destruct Htr as (members & topics & Hm & _ & _ & Htm & Hto).
    injection Hm as <-. injection Htm as <-. injection Hto as <-.
    rewrite lookup_singleton_eq in Hsym. by injection Hsym as <-.
Defined.
